(** * quantumrandom: the tutorial circuits and the statevector simulator they run on

    The scripts (bellstate.py, thirds.py, increment.py, grover.py,
    grover_simple.py) build circuits by calling gate methods on a
    [QuantumCircuit] object and inspect the result with [Statevector(algo)].
    The circuits are embedded from the scripts; the simulator that gives
    them a meaning is the external library, and is modelled here from the
    design document (StateVector, GateApplicator, CircuitProgram, Sampler). *)

From Stdlib Require Import Reals Lra Lia List Arith PeanoNat Bool.
From Stdlib Require Import QArith Qreals Permutation FinFun Ring.
From Corelib Require PrimFloat SpecFloat FloatOps.
Import ListNotations.

Set Implicit Arguments.
Local Open Scope nat_scope.

(** ** Complex amplitudes *)

Definition Cplx : Type := (R * R)%type.

Definition Cadd (x y : Cplx) : Cplx := (fst x + fst y, snd x + snd y)%R.
Definition Cmul (x y : Cplx) : Cplx :=
  (fst x * fst y - snd x * snd y, fst x * snd y + snd x * fst y)%R.
Definition Copp (x : Cplx) : Cplx := (- fst x, - snd x)%R.
Definition RtoC (r : R) : Cplx := (r, 0%R).
Definition Cnorm2 (x : Cplx) : R := (fst x * fst x + snd x * snd x)%R.

(** ** The interface of an amplitude type

    The gate applicator only adds, multiplies and negates amplitudes, and
    needs the Hadamard coefficient [1/sqrt 2] and, for a rotation, the cosine
    and sine of half the angle. An amplitude type that cannot represent a
    rotation's coefficients answers [None], and the gate is then of an
    unknown kind for it. *)

Class Amplitude (A : Type) : Type := {
  azero : A;
  aone : A;
  aadd : A -> A -> A;
  amul : A -> A -> A;
  aopp : A -> A;
  ainv_sqrt2 : A;
  ahalf_angle : R -> option (A * A)
}.

#[export] Instance Cplx_Amplitude : Amplitude Cplx := {
  azero := RtoC 0;
  aone := RtoC 1;
  aadd := Cadd;
  amul := Cmul;
  aopp := Copp;
  ainv_sqrt2 := RtoC (/ sqrt 2);
  ahalf_angle := fun theta => Some (RtoC (cos (theta / 2)), RtoC (sin (theta / 2)))
}.

(** Exact amplitudes [rat + irr * sqrt 2] with rational [rat] and [irr], kept
    in lowest terms: the amplitudes of every rotation-free circuit of the
    scripts live here, and they can be computed. *)

Module Exact.

Record t : Type := mk { rat : Q; irr : Q }.

Definition add (x y : t) : t :=
  mk (Qred (rat x + rat y)%Q) (Qred (irr x + irr y)%Q).
Definition mul (x y : t) : t :=
  mk (Qred (rat x * rat y + 2 * (irr x * irr y))%Q)
     (Qred (rat x * irr y + irr x * rat y)%Q).
Definition opp (x : t) : t := mk (Qred (- rat x)%Q) (Qred (- irr x)%Q).

Definition interp (x : t) : Cplx := RtoC (Q2R (rat x) + Q2R (irr x) * sqrt 2)%R.

(** The squared magnitude of a real amplitude. *)
Definition norm2 (x : t) : t := mul x x.

End Exact.

#[export] Instance Exact_Amplitude : Amplitude Exact.t := {
  azero := Exact.mk 0%Q 0%Q;
  aone := Exact.mk 1%Q 0%Q;
  aadd := Exact.add;
  amul := Exact.mul;
  aopp := Exact.opp;
  ainv_sqrt2 := Exact.mk 0%Q (1 # 2)%Q;
  ahalf_angle := fun _ => None
}.

(** ** Errors *)

Inductive SimError : Type :=
  | InvalidDimension
  | QubitIndexOutOfRange
  | InvalidGateSpec
  | QubitCountMismatch
  | NormalizationViolation
  | InvalidShotCount.

Inductive result (T : Type) : Type :=
  | Ok (x : T)
  | Err (e : SimError).
Arguments Ok {T} x.
Arguments Err {T} e.

Definition bind {T U : Type} (r : result T) (k : T -> result U) : result U :=
  match r with
  | Ok x => k x
  | Err e => Err e
  end.

Notation "r >>= k" := (bind r k) (at level 50, left associativity).

(** ** Gates and circuit programs *)

Inductive GateKind : Type :=
  | Hadamard
  | PauliX
  | RotationY (theta : R)
  | PhaseFlip.

(** Modelled from the spec: the Gate of section 3, which the scripts only
    create through library calls: its kind, its control qubits and its
    target qubit. *)
Record Gate : Type := mkGate {
  kind : GateKind;
  controls : list nat;
  target : nat
}.

(** Modelled from the spec: the CircuitProgram of section 3, the circuit
    object of the scripts: a declared number of qubits and of classical
    bits, and the gates appended so far, in application order. *)
Record QuantumCircuit : Type := mkCircuit {
  num_qubits : nat;
  num_clbits : nat;
  data : list Gate
}.

(** [QuantumCircuit(q)] and [QuantumCircuit(q, c)]. *)
Definition new_circuit (nq nc : nat) : QuantumCircuit := mkCircuit nq nc [].

Definition append (g : Gate) (algo : QuantumCircuit) : QuantumCircuit :=
  mkCircuit (num_qubits algo) (num_clbits algo) (data algo ++ [g]).

(** Modelled from the spec: the gate methods called by the scripts, with the
    argument order of the calls (controls before the target, the angle
    before the qubit); each call mutates the circuit by appending one gate,
    which is state passing here. *)
Definition h (t : nat) := append (mkGate Hadamard [] t).
Definition x (t : nat) := append (mkGate PauliX [] t).
Definition ry (theta : R) (t : nat) := append (mkGate (RotationY theta) [] t).
Definition cx (c t : nat) := append (mkGate PauliX [c] t).
Definition ccx (c1 c2 t : nat) := append (mkGate PauliX [c1; c2] t).
Definition ccz (c1 c2 t : nat) := append (mkGate PhaseFlip [c1; c2] t).

(** Statements of a script run one after the other on the same object. *)
Notation "algo |> f" := (f algo) (at level 45, left associativity, only parsing).

(** Modelled from the spec: composition of two programs (section 4.3), which
    the scripts perform by calling one fragment after the other on the same
    circuit. Fragments built for different register sizes do not compose. *)
Definition compose (a b : QuantumCircuit) : result QuantumCircuit :=
  if Nat.eqb (num_qubits a) (num_qubits b)
  then Ok (mkCircuit (num_qubits a) (num_clbits a) (data a ++ data b))
  else Err QubitCountMismatch.

(** ** The simulator *)

Section Simulator.

Context {A : Type} {AmpA : Amplitude A}.

Definition StateVector : Type := list A.

(** Amplitude at a basis index. *)
Definition amp (v : StateVector) (i : nat) : A := nth i v azero.

(** The basis index that differs from [i] in bit [t] only. *)
Definition partner (i t : nat) : nat := Nat.lxor i (2 ^ t).

(** Every listed qubit is 1 in basis index [i]. *)
Definition all_set (qs : list nat) (i : nat) : bool := forallb (Nat.testbit i) qs.

(** Modelled from the spec: [initialize(n)] of section 4.1, amplitude 1 at
    index 0 and 0 elsewhere; [InvalidDimension] for [n < 1]. *)
Definition initialize (n : nat) : result StateVector :=
  if n <? 1 then Err InvalidDimension
  else Ok (aone :: repeat azero (2 ^ n - 1)).

Record Unitary2 : Type := mkU {
  u00 : A; u01 : A;
  u10 : A; u11 : A
}.

(** Modelled from the spec: the recognized unitaries of section 4.2. *)
Definition unitary_of (k : GateKind) : option Unitary2 :=
  match k with
  | Hadamard =>
      Some (mkU ainv_sqrt2 ainv_sqrt2 ainv_sqrt2 (aopp ainv_sqrt2))
  | PauliX => Some (mkU azero aone aone azero)
  | RotationY theta =>
      match ahalf_angle theta with
      | Some (c, s) => Some (mkU c (aopp s) s c)
      | None => None
      end
  | PhaseFlip => None
  end.

(** Modelled from the spec: the gate applicator of section 4.2. Indices are
    paired by the target bit and the 2x2 matrix acts on each pair, at the
    indices where every control bit is 1; the other indices are unchanged. *)
Definition apply_unitary (U : Unitary2) (cs : list nat) (t : nat)
    (v : StateVector) : StateVector :=
  map (fun i =>
         if all_set cs i then
           if Nat.testbit i t
           then aadd (amul (u10 U) (amp v (partner i t))) (amul (u11 U) (amp v i))
           else aadd (amul (u00 U) (amp v i)) (amul (u01 U) (amp v (partner i t)))
         else amp v i)
      (seq 0 (length v)).

(** Modelled from the spec: the controlled phase flip of section 4.2, which
    negates the amplitude at the indices where all listed qubits are 1. *)
Definition apply_phase_flip (qs : list nat) (v : StateVector) : StateVector :=
  map (fun i => if all_set qs i then aopp (amp v i) else amp v i)
      (seq 0 (length v)).

(** Modelled from the spec: the error conditions of section 4.2. *)
Definition check_gate (n : nat) (g : Gate) : result unit :=
  if negb (forallb (fun q => q <? n) (target g :: controls g))
  then Err QubitIndexOutOfRange
  else if existsb (Nat.eqb (target g)) (controls g)
  then Err InvalidGateSpec
  else Ok tt.

Definition apply_gate (n : nat) (g : Gate) (v : StateVector) : result StateVector :=
  check_gate n g >>= fun _ =>
  match kind g with
  | PhaseFlip => Ok (apply_phase_flip (controls g ++ [target g]) v)
  | k =>
      match unitary_of k with
      | Some U => Ok (apply_unitary U (controls g) (target g) v)
      | None => Err InvalidGateSpec
      end
  end.

(** Modelled from the spec: replay of a program, gate after gate (section
    4.3 and the design note on [replay(program, initial_state)]). *)
Fixpoint replay_gates (n : nat) (gs : list Gate) (v : StateVector)
    : result StateVector :=
  match gs with
  | [] => Ok v
  | g :: gs' => apply_gate n g v >>= replay_gates n gs'
  end.

Definition replay (algo : QuantumCircuit) (v : StateVector) : result StateVector :=
  replay_gates (num_qubits algo) (data algo) v.

(** [Statevector(algo)] of the scripts: the program replayed on the all-zero
    state of its register. *)
Definition Statevector (algo : QuantumCircuit) : result StateVector :=
  initialize (num_qubits algo) >>= replay algo.

End Simulator.

Arguments StateVector A : clear implicits.
Arguments Unitary2 A : clear implicits.

(** ** The sampler's distribution *)

Fixpoint Rsum (l : list R) : R :=
  match l with
  | [] => 0%R
  | r :: l' => (r + Rsum l')%R
  end.

(** Sum of the squared magnitudes of a statevector. *)
Definition norm2 (v : StateVector Cplx) : R := Rsum (map Cnorm2 v).

(** Modelled from the spec: [normalize_check(tolerance)] of section 4.1 as a
    proposition, with the default tolerance [1e-6]. *)
Definition normalized_within (tol : R) (v : StateVector Cplx) : Prop :=
  (Rabs (norm2 v - 1) <= tol)%R.
Definition default_tolerance : R := (1 / 1000000)%R.

(** Probability of observing basis index [i] when every qubit is measured. *)
Definition probability (v : StateVector Cplx) (i : nat) : R := Cnorm2 (amp v i).

(** Basis index [i] shows the bits [bits] on the measured qubits [qs]. *)
Fixpoint shows (qs : list nat) (bits : list bool) (i : nat) : bool :=
  match qs, bits with
  | q :: qs', b :: bits' => Bool.eqb (Nat.testbit i q) b && shows qs' bits' i
  | [], [] => true
  | _, _ => false
  end.

(** Modelled from the spec: the outcome probability of section 4.4, the
    squared magnitudes summed over the basis indices that share the outcome
    on the measured qubits (the other qubits are marginalized). *)
Definition outcome_probability (qs : list nat) (bits : list bool)
    (v : StateVector Cplx) : R :=
  Rsum (map (fun i => if shows qs bits i then probability v i else 0%R)
            (seq 0 (length v))).

(** The same sum over exact amplitudes. *)
Definition exact_outcome_probability (qs : list nat) (bits : list bool)
    (v : StateVector Exact.t) : Exact.t :=
  fold_right Exact.add azero
    (map (fun i => if shows qs bits i then Exact.norm2 (amp v i) else azero)
         (seq 0 (length v))).

(** ** The circuits of the scripts *)

(** simple.py *)
Module simple.

Definition algo_v2 : QuantumCircuit := new_circuit 2 0 |> h 0.
Definition algo : QuantumCircuit := algo_v2 |> h 1.

End simple.

(** bellstate.py *)
Module bellstate.

Definition algo : QuantumCircuit :=
  new_circuit 2 0
  |> h 0
  |> cx 0 1.

End bellstate.

(** The number a double stands for, as a fraction (0 for an infinity or a
    NaN, which the scripts never produce). *)
Definition float_to_Q (f : PrimFloat.float) : Q :=
  match FloatOps.Prim2SF f with
  | SpecFloat.S754_finite s m e =>
      let z := if s then Z.neg m else Z.pos m in
      match e with
      | Z0 => inject_Z z
      | Zpos p => inject_Z (z * 2 ^ Zpos p)
      | Zneg p => Qmake z (2 ^ p)
      end
  | _ => 0%Q
  end.

(** The same as a real number: what a gate receives when the script passes
    it a double. *)
Definition float_to_R (f : PrimFloat.float) : R := Q2R (float_to_Q f).

(** thirds.py. The two angles are doubles, computed with the arithmetic of
    IEEE 754. *)
Module thirds.

Import PrimFloat.
Local Open Scope float_scope.

(** [np.pi], the double nearest to pi. *)
Definition np_pi : float := 0x1.921fb54442d18p+1.

(** [np.sqrt(1.0/3.0)]. *)
Definition sqrt_third : float := sqrt (1 / 3).

(** [np.arcsin(np.sqrt(1.0/3.0))]. The arcsine is the C library's, which is
    not part of the repository; at this argument its value is the double
    nearest to the exact arcsine of [sqrt_third]. *)
Definition arcsin_sqrt_third : float := 0x1.3b2028082e8d3p-1.

Definition angle1 : float := 2 * arcsin_sqrt_third.
Definition angle2 : float := np_pi / 4.

Definition algo : QuantumCircuit :=
  new_circuit 2 0
  |> ry (float_to_R angle1) 1
  |> h 0
  |> ry (float_to_R angle2) 0
  |> cx 1 0
  |> ry (float_to_R (- angle2)) 0.

End thirds.

(** increment.py *)
Module increment.

Definition add_increment (algo : QuantumCircuit) : QuantumCircuit :=
  algo
  |> ccx 0 1 2
  |> cx 0 1
  |> x 0.

(** [algo1] at the three points where the script prints its statevector. *)
Definition algo1_v1 : QuantumCircuit := new_circuit 3 0 |> x 1.
Definition algo1_v2 : QuantumCircuit := algo1_v1 |> add_increment.
Definition algo1_v3 : QuantumCircuit := algo1_v2 |> add_increment.

Definition algo2_v4 : QuantumCircuit := new_circuit 3 0 |> h 2.
Definition algo2_v5 : QuantumCircuit := algo2_v4 |> add_increment.

End increment.

(** grover_simple.py *)
Module grover_simple.

Definition add_verify (algo : QuantumCircuit) : QuantumCircuit :=
  algo
  |> x 1
  |> ccx 0 1 2
  |> x 1.

Definition add_verify_with_h (algo : QuantumCircuit) : QuantumCircuit :=
  algo
  |> h 2
  |> add_verify
  |> h 2.

Definition add_prepare (algo : QuantumCircuit) : QuantumCircuit :=
  algo
  |> h 0
  |> h 1
  |> h 2.

Definition add_reverse (algo : QuantumCircuit) : QuantumCircuit :=
  algo
  |> x 0
  |> x 1
  |> x 2.

Definition add_amplify (algo : QuantumCircuit) : QuantumCircuit :=
  algo
  |> add_prepare
  |> add_reverse
  |> ccz 0 1 2
  |> add_reverse
  |> add_prepare.

Definition algo4 : QuantumCircuit :=
  new_circuit 3 2
  |> add_prepare
  |> add_verify_with_h
  |> add_amplify.

(** [algo4.measure(q[0:2], c)]: qubits 0 and 1 are measured. *)
Definition measured : list nat := [0; 1].

End grover_simple.

(** grover.py: the same fragments, and the circuits it prints on the way. *)
Module grover.

Definition algo1_v1 : QuantumCircuit := new_circuit 3 0 |> x 0 |> x 1.
Definition algo1_v2 : QuantumCircuit := algo1_v1 |> ccx 0 1 2.

Definition add_verify (algo : QuantumCircuit) : QuantumCircuit :=
  algo
  |> x 1
  |> ccx 0 1 2
  |> x 1.

Definition algo2 : QuantumCircuit := new_circuit 3 0 |> x 0 |> add_verify.

Definition add_verify_with_h (algo : QuantumCircuit) : QuantumCircuit :=
  algo
  |> h 2
  |> add_verify
  |> h 2.

Definition add_prepare (algo : QuantumCircuit) : QuantumCircuit :=
  algo
  |> h 0
  |> h 1
  |> h 2.

Definition algo3_v4 : QuantumCircuit :=
  new_circuit 3 0 |> add_prepare |> add_verify_with_h.
Definition algo3_v5 : QuantumCircuit := algo3_v4 |> add_prepare.

Definition add_reverse (algo : QuantumCircuit) : QuantumCircuit :=
  algo
  |> x 0
  |> x 1
  |> x 2.

Definition algo3_v6 : QuantumCircuit :=
  algo3_v5 |> add_reverse |> ccz 0 1 2 |> add_reverse.
Definition algo3_v7 : QuantumCircuit := algo3_v6 |> add_prepare.

Definition add_amplify (algo : QuantumCircuit) : QuantumCircuit :=
  algo
  |> add_prepare
  |> add_reverse
  |> ccz 0 1 2
  |> add_reverse
  |> add_prepare.

Definition algo4 : QuantumCircuit :=
  new_circuit 3 2
  |> add_prepare
  |> add_verify_with_h
  |> add_amplify.

Definition measured : list nat := [0; 1].

End grover.

(** ** Auxiliary definitions used by the properties *)

(** A matrix of exact amplitudes read in the complex numbers. *)
Definition interp_unitary (U : Unitary2 Exact.t) : Unitary2 Cplx :=
  mkU (Exact.interp (u00 U)) (Exact.interp (u01 U))
      (Exact.interp (u10 U)) (Exact.interp (u11 U)).

(** A 2x2 matrix that preserves the squared length of every pair. *)
Definition isometry2 (U : Unitary2 Cplx) : Prop :=
  forall a b : Cplx,
    (Cnorm2 (Cadd (Cmul (u00 U) a) (Cmul (u01 U) b)) +
     Cnorm2 (Cadd (Cmul (u10 U) a) (Cmul (u11 U) b)) =
     Cnorm2 a + Cnorm2 b)%R.

(** The basis state [|k>] of an [n]-qubit register. *)
Definition basis_state {A : Type} {AmpA : Amplitude A} (n k : nat) : StateVector A :=
  map (fun i => if Nat.eqb i k then aone else azero) (seq 0 (2 ^ n)).

(** The Bell state. *)
Definition bell_vector : StateVector Cplx :=
  [RtoC (/ sqrt 2); RtoC 0; RtoC 0; RtoC (/ sqrt 2)].

(** The index whose amplitude a (controlled) X gate moves to index [i]. *)
Definition x_index (g : Gate) (i : nat) : nat :=
  if all_set (controls g) i then partner i (target g) else i.

(** The same for a list of gates in application order. *)
Fixpoint pull (gs : list Gate) (i : nat) : nat :=
  match gs with
  | [] => i
  | g :: gs' => x_index g (pull gs' i)
  end.

Definition is_PauliX (g : Gate) : bool :=
  match kind g with
  | PauliX => true
  | _ => false
  end.

(** The gates that [add_increment] appends. *)
Definition increment_gates : list Gate := data (increment.add_increment (new_circuit 3 0)).

(** The basis index the oracle sends [b] to: bit 2 is flipped when bit 0 is
    set and bit 1 is clear. *)
Definition verify_image (b : nat) : nat :=
  Nat.lxor b (if Nat.testbit b 0 && negb (Nat.testbit b 1) then 2 ^ 2 else 0).

(** The statevector of [algo4], with exact amplitudes: [-5 sqrt 2 / 8] at
    index 5 and [- sqrt 2 / 8] elsewhere. *)
Definition grover_exact : StateVector Exact.t :=
  map (fun i => Exact.mk 0 (if Nat.eqb i 5 then (-5 # 8) else (-1 # 8))%Q) (seq 0 8).

Definition grover_vector : StateVector Cplx := map Exact.interp grover_exact.

(** The circuits the scripts run or print. *)
Definition script_circuits : list QuantumCircuit :=
  [simple.algo; bellstate.algo; thirds.algo;
   increment.algo1_v3; increment.algo2_v5;
   grover.algo1_v2; grover.algo2; grover.algo3_v7; grover.algo4;
   grover_simple.algo4].

(** The circuit after its first [k] gates. *)
Definition prefix (k : nat) (algo : QuantumCircuit) : QuantumCircuit :=
  mkCircuit (num_qubits algo) (num_clbits algo) (firstn k (data algo)).

Definition gate_ok (n : nat) (g : Gate) : bool :=
  match check_gate n g with
  | Ok _ => true
  | Err _ => false
  end.

(** A register of at least one qubit and gates that all pass the checks. *)
Definition valid_circuit (algo : QuantumCircuit) : bool :=
  (1 <=? num_qubits algo) && forallb (gate_ok (num_qubits algo)) (data algo).

(** Three basis states with amplitude [sqrt (1/3)] each. *)
Definition thirds_vector : StateVector Cplx :=
  [RtoC (sqrt (1 / 3)); RtoC (sqrt (1 / 3)); RtoC (sqrt (1 / 3)); RtoC 0].

(** The circuit of thirds.py with its two angles as real parameters. *)
Definition thirds_circuit (a1 a2 : R) : QuantumCircuit :=
  new_circuit 2 0
  |> ry a1 1
  |> h 0
  |> ry a2 0
  |> cx 1 0
  |> ry (- a2) 0.

(** The statevector that circuit yields. *)
Definition thirds_state (a1 a2 : R) : StateVector Cplx :=
  [RtoC (/ sqrt 2 * cos (a1 / 2));
   RtoC (/ sqrt 2 * cos (a1 / 2));
   RtoC (sin (a1 / 2) * / sqrt 2 * (cos a2 + sin a2));
   RtoC (sin (a1 / 2) * / sqrt 2 * (cos a2 - sin a2))].

(** The exact angles that the doubles of thirds.py approximate. *)
Definition ideal_angle1 : R := (2 * asin (sqrt (1 / 3)))%R.
Definition ideal_angle2 : R := (PI / 4)%R.

(** The angles of thirds.py as real numbers. *)
Definition thirds_angle1 : R := float_to_R thirds.angle1.
Definition thirds_angle2 : R := float_to_R thirds.angle2.

(** Partial sums of the sine and cosine series at a fraction, computed with
    fractions in Horner form: the counterparts of [sin_approx] and
    [cos_approx]. [hornerQ x den j n] is
    [1 - x / den j * (1 - x / den (j+1) * (... ))] with [n] factors. *)
Fixpoint hornerQ (x : Q) (den : nat -> nat) (j n : nat) : Q :=
  match n with
  | O => 1%Q
  | S n' =>
      (1 - x / inject_Z (Z.of_nat (den j)) * hornerQ x den (S j) n')%Q
  end.

Definition sin_den (j : nat) : nat := (2 * j + 2) * (2 * j + 3).
Definition cos_den (j : nat) : nat := (2 * j + 1) * (2 * j + 2).

Definition sin_approxQ (a : Q) (n : nat) : Q :=
  (a * hornerQ (a * a) sin_den 0 n)%Q.
Definition cos_approxQ (a : Q) (n : nat) : Q :=
  hornerQ (a * a) cos_den 0 n.

(** Lower and upper bounds of the sine and the cosine at a fraction. *)
Definition sin_lo (a : Q) : Q := sin_approxQ a (2 * 4 + 1).
Definition sin_hi (a : Q) : Q := sin_approxQ a (2 * (4 + 1)).
Definition cos_lo (a : Q) : Q := cos_approxQ a (2 * 4 + 1).
Definition cos_hi (a : Q) : Q := cos_approxQ a (2 * (4 + 1)).

(** ** Definitions for the fragments and the printed statevectors *)

(** The gates each fragment of the Grover scripts appends. *)
Definition verify_gates : list Gate :=
  data (grover_simple.add_verify (new_circuit 3 0)).
Definition verify_with_h_gates : list Gate :=
  data (grover_simple.add_verify_with_h (new_circuit 3 0)).
Definition prepare_gates : list Gate :=
  data (grover_simple.add_prepare (new_circuit 3 0)).
Definition reverse_gates : list Gate :=
  data (grover_simple.add_reverse (new_circuit 3 0)).
Definition amplify_gates : list Gate :=
  data (grover_simple.add_amplify (new_circuit 3 0)).

(** Sum of a list of amplitudes. *)
Fixpoint Csum (l : list Cplx) : Cplx :=
  match l with
  | [] => RtoC 0
  | a :: l' => Cadd a (Csum l')
  end.

(** What the amplify fragment does to a statevector: a quarter of the sum of
    all amplitudes is subtracted from each of them. *)
Definition minus_quarter_sum (v : StateVector Cplx) : StateVector Cplx :=
  map (fun a => Cadd a (Copp (Cmul (RtoC (1 / 4)) (Csum v)))) v.

(** A real factor times a vector of integers, the way the scripts print a
    statevector. *)
Definition scaled (r : R) (ks : list Z) : StateVector Cplx :=
  map (fun k => RtoC (IZR k * r)) ks.

(** [add_increment] called eight times in a row on the same circuit. *)
Definition eight_increments (algo : QuantumCircuit) : QuantumCircuit :=
  algo
  |> increment.add_increment |> increment.add_increment
  |> increment.add_increment |> increment.add_increment
  |> increment.add_increment |> increment.add_increment
  |> increment.add_increment |> increment.add_increment.

(** * Properties *)

(** ** Arithmetic of amplitudes *)

Lemma sqrt2_sqr : (sqrt 2 * sqrt 2 = 2)%R.
Proof. apply sqrt_sqrt; lra. Qed.

Lemma sqrt2_pos : (0 < sqrt 2)%R.
Proof. apply sqrt_lt_R0; lra. Qed.

Lemma inv_sqrt2_half : (/ sqrt 2 = sqrt 2 / 2)%R.
Proof.
  pose proof sqrt2_pos as Hpos.
  apply Rmult_eq_reg_l with (r := sqrt 2); [| lra].
  rewrite Rinv_r by lra.
  unfold Rdiv. rewrite <- Rmult_assoc, sqrt2_sqr. lra.
Qed.

Lemma inv_sqrt2_sqr : (/ sqrt 2 * / sqrt 2 = 1 / 2)%R.
Proof. rewrite inv_sqrt2_half. pose proof sqrt2_sqr. nra. Qed.

Lemma Cplx_eq (a b : Cplx) : fst a = fst b -> snd a = snd b -> a = b.
Proof. destruct a, b; simpl; congruence. Qed.

(** Closes an equation between complex numbers that holds coordinatewise in
    the ring of reals. *)
Ltac cring :=
  apply Cplx_eq; unfold Cadd, Cmul, Copp, RtoC; simpl; ring.

Lemma Cnorm2_opp (a : Cplx) : Cnorm2 (Copp a) = Cnorm2 a.
Proof. unfold Cnorm2, Copp; simpl; ring. Qed.

Lemma Cnorm2_nonneg (a : Cplx) : (0 <= Cnorm2 a)%R.
Proof. unfold Cnorm2; nra. Qed.

(** ** Bits of basis indices *)

Lemma partner_involutive (i t : nat) : partner (partner i t) t = i.
Proof.
  unfold partner. rewrite Nat.lxor_assoc, Nat.lxor_nilpotent.
  apply Nat.lxor_0_r.
Qed.

Lemma partner_injective (t : nat) : Injective (fun i => partner i t).
Proof.
  intros i j Hij.
  rewrite <- (partner_involutive i t), <- (partner_involutive j t).
  now f_equal.
Qed.

Lemma testbit_partner (i t q : nat) :
  Nat.testbit (partner i t) q = xorb (Nat.testbit i q) (Nat.eqb t q).
Proof.
  unfold partner. now rewrite Nat.lxor_spec, Nat.pow2_bits_eqb.
Qed.

Lemma testbit_partner_same (i t : nat) :
  Nat.testbit (partner i t) t = negb (Nat.testbit i t).
Proof.
  rewrite testbit_partner, Nat.eqb_refl. now destruct (Nat.testbit i t).
Qed.

Lemma partner_lt (n i t : nat) : i < 2 ^ n -> t < n -> partner i t < 2 ^ n.
Proof.
  intros Hi Ht. unfold partner.
  destruct (Nat.eq_dec (Nat.lxor i (2 ^ t)) 0) as [E | E].
  - rewrite E. apply Nat.neq_0_lt_0, Nat.pow_nonzero. lia.
  - apply Nat.log2_lt_pow2; [lia |].
    eapply Nat.le_lt_trans; [apply Nat.log2_lxor |].
    rewrite Nat.log2_pow2 by lia.
    destruct (Nat.eq_dec i 0) as [-> | Hi0].
    + rewrite Nat.log2_nonpos by lia. lia.
    + assert (Nat.log2 i < n) by (apply Nat.log2_lt_pow2; lia). lia.
Qed.

(** The controls of a gate read the same at an index and at its partner,
    because the target is none of them. *)
Lemma all_set_partner (cs : list nat) (i t : nat) :
  existsb (Nat.eqb t) cs = false -> all_set cs (partner i t) = all_set cs i.
Proof.
  unfold all_set. induction cs as [| c cs IH]; simpl; intros Hc; [reflexivity |].
  apply orb_false_iff in Hc as [Hc1 Hc2].
  rewrite testbit_partner, Hc1, IH by assumption.
  now rewrite xorb_false_r.
Qed.

(** ** Reading a statevector after a gate *)

Lemma nth_map_seq {T : Type} (f : nat -> T) (n i : nat) (d : T) :
  i < n -> nth i (map f (seq 0 n)) d = f i.
Proof.
  intros Hi.
  rewrite (nth_indep _ d (f 0)) by now rewrite length_map, length_seq.
  rewrite map_nth, seq_nth by assumption. reflexivity.
Qed.

Lemma map_amp_seq {A : Type} {AmpA : Amplitude A} (v : StateVector A) :
  map (amp v) (seq 0 (length v)) = v.
Proof.
  apply nth_ext with (d := azero) (d' := azero).
  - now rewrite length_map, length_seq.
  - intros i Hi. rewrite length_map, length_seq in Hi.
    now rewrite nth_map_seq.
Qed.

Section Reading.

Context {A : Type} {AmpA : Amplitude A}.

Lemma length_apply_unitary (U : Unitary2 A) cs t (v : StateVector A) :
  length (apply_unitary U cs t v) = length v.
Proof. unfold apply_unitary. now rewrite length_map, length_seq. Qed.

Lemma length_apply_phase_flip qs (v : StateVector A) :
  length (apply_phase_flip qs v) = length v.
Proof. unfold apply_phase_flip. now rewrite length_map, length_seq. Qed.

Lemma amp_apply_unitary (U : Unitary2 A) cs t (v : StateVector A) i :
  i < length v ->
  amp (apply_unitary U cs t v) i =
    if all_set cs i then
      if Nat.testbit i t
      then aadd (amul (u10 U) (amp v (partner i t))) (amul (u11 U) (amp v i))
      else aadd (amul (u00 U) (amp v i)) (amul (u01 U) (amp v (partner i t)))
    else amp v i.
Proof.
  intros Hi. unfold amp at 1, apply_unitary. now rewrite nth_map_seq.
Qed.

Lemma amp_apply_phase_flip qs (v : StateVector A) i :
  i < length v ->
  amp (apply_phase_flip qs v) i =
    if all_set qs i then aopp (amp v i) else amp v i.
Proof.
  intros Hi. unfold amp at 1, apply_phase_flip. now rewrite nth_map_seq.
Qed.

Lemma apply_gate_length n g (v w : StateVector A) :
  apply_gate n g v = Ok w -> length w = length v.
Proof.
  unfold apply_gate. destruct (check_gate n g); simpl; [| discriminate].
  destruct (kind g); simpl;
    try (destruct (ahalf_angle theta) as [[c s] |]);
    intros E; inversion E; subst;
    auto using length_apply_unitary, length_apply_phase_flip.
Qed.

Lemma replay_gates_length n gs : forall (v w : StateVector A),
  replay_gates n gs v = Ok w -> length w = length v.
Proof.
  induction gs as [| g gs IH]; simpl; intros v w E.
  - now inversion E.
  - destruct (apply_gate n g v) as [v1 |] eqn:E1; simpl in E; [| discriminate].
    rewrite (IH _ _ E). eapply apply_gate_length; eauto.
Qed.

(** Replay distributes over concatenation of gate lists. *)
Lemma replay_gates_app n gs1 gs2 : forall v : StateVector A,
  replay_gates n (gs1 ++ gs2) v = replay_gates n gs1 v >>= replay_gates n gs2.
Proof.
  induction gs1 as [| g gs1 IH]; simpl; intros v; [reflexivity |].
  destruct (apply_gate n g v) as [v1 |]; simpl; [apply IH | reflexivity].
Qed.

End Reading.

(** ** Exact amplitudes compute the complex ones *)

Module ExactFacts.

Import Exact.

Lemma Q2R_Qred (q : Q) : Q2R (Qred q) = Q2R q.
Proof. apply Qeq_eqR, Qred_correct. Qed.

(** Unfolds the operations of both amplitude types, leaving the reduction
    of fractions to lowest terms folded. *)
Ltac exact_unfold :=
  unfold interp;
  cbn [aadd amul aopp azero aone ainv_sqrt2 Exact_Amplitude Cplx_Amplitude];
  unfold add, mul, opp, Cadd, Cmul, Copp, RtoC;
  cbn [fst snd rat irr].

Lemma interp_zero : interp azero = azero.
Proof. unfold interp; simpl. unfold RtoC, Q2R; simpl. f_equal. lra. Qed.

Lemma interp_one : interp aone = aone.
Proof. unfold interp; simpl. unfold RtoC, Q2R; simpl. f_equal. lra. Qed.

Lemma interp_inv_sqrt2 : interp ainv_sqrt2 = ainv_sqrt2.
Proof.
  unfold interp; simpl. unfold RtoC, Q2R; simpl. f_equal.
  rewrite inv_sqrt2_half. lra.
Qed.

Lemma interp_add (a b : t) : interp (aadd a b) = aadd (interp a) (interp b).
Proof.
  exact_unfold. apply Cplx_eq; cbn [fst snd]; [| lra].
  rewrite !Q2R_Qred, !Q2R_plus. lra.
Qed.

Lemma interp_opp (a : t) : interp (aopp a) = aopp (interp a).
Proof.
  exact_unfold. apply Cplx_eq; cbn [fst snd]; [| lra].
  rewrite !Q2R_Qred, !Q2R_opp. lra.
Qed.

Lemma interp_mul (a b : t) : interp (amul a b) = amul (interp a) (interp b).
Proof.
  exact_unfold. apply Cplx_eq; cbn [fst snd]; [| lra].
  rewrite !Q2R_Qred, !Q2R_plus, !Q2R_mult.
  replace (Q2R 2) with 2%R by (unfold Q2R; simpl; lra).
  pose proof sqrt2_sqr as Hs.
  replace ((Q2R (rat a) + Q2R (irr a) * sqrt 2) *
           (Q2R (rat b) + Q2R (irr b) * sqrt 2) - 0 * 0)%R
    with (Q2R (rat a) * Q2R (rat b)
          + Q2R (irr a) * Q2R (irr b) * (sqrt 2 * sqrt 2)
          + (Q2R (rat a) * Q2R (irr b) + Q2R (irr a) * Q2R (rat b)) * sqrt 2)%R
    by ring.
  rewrite Hs. ring.
Qed.

Lemma Cnorm2_interp (a : t) : Cnorm2 (interp a) = fst (interp (norm2 a)).
Proof.
  unfold norm2. change (mul a a) with (amul a a). rewrite interp_mul.
  unfold Cnorm2, interp, RtoC; simpl. ring.
Qed.

Lemma amp_interp (v : StateVector t) i : amp (map interp v) i = interp (amp v i).
Proof. unfold amp. rewrite <- interp_zero. apply map_nth. Qed.

Lemma apply_unitary_interp U cs q (v : StateVector t) :
  apply_unitary (interp_unitary U) cs q (map interp v) =
  map interp (apply_unitary U cs q v).
Proof.
  unfold apply_unitary. rewrite map_map, length_map.
  apply map_ext. intros i. rewrite !amp_interp.
  destruct (all_set cs i); [| reflexivity].
  destruct (Nat.testbit i q); simpl; now rewrite interp_add, !interp_mul.
Qed.

Lemma apply_phase_flip_interp qs (v : StateVector t) :
  apply_phase_flip qs (map interp v) = map interp (apply_phase_flip qs v).
Proof.
  unfold apply_phase_flip. rewrite map_map, length_map.
  apply map_ext. intros i. rewrite amp_interp.
  destruct (all_set qs i); [apply eq_sym, interp_opp | reflexivity].
Qed.

Lemma unitary_of_interp k (U : Unitary2 t) :
  unitary_of k = Some U -> unitary_of k = Some (interp_unitary U).
Proof.
  destruct k; cbn [unitary_of]; try discriminate;
    intros E; inversion E; subst; clear E;
    unfold interp_unitary; cbn [u00 u01 u10 u11].
  - rewrite <- interp_inv_sqrt2, <- interp_opp. reflexivity.
  - rewrite <- interp_zero, <- interp_one. reflexivity.
Qed.

Lemma apply_gate_interp n g (v w : StateVector t) :
  apply_gate n g v = Ok w -> apply_gate n g (map interp v) = Ok (map interp w).
Proof.
  unfold apply_gate. destruct (check_gate n g); cbn [bind]; [| discriminate].
  destruct (kind g) eqn:K;
    try (destruct (unitary_of (A := t) _) as [U |] eqn:EU; [| discriminate];
         intros E; inversion E; subst;
         rewrite (unitary_of_interp _ EU); now rewrite apply_unitary_interp).
  intros E; inversion E; subst. now rewrite apply_phase_flip_interp.
Qed.

Lemma replay_gates_interp n gs : forall (v w : StateVector t),
  replay_gates n gs v = Ok w ->
  replay_gates n gs (map interp v) = Ok (map interp w).
Proof.
  induction gs as [| g gs IH]; simpl; intros v w E.
  - now inversion E.
  - destruct (apply_gate n g v) as [v1 |] eqn:E1; simpl in E; [| discriminate].
    rewrite (apply_gate_interp _ _ _ E1). simpl. now apply IH.
Qed.

Lemma initialize_interp n (v : StateVector t) :
  initialize n = Ok v -> initialize n = Ok (map interp v).
Proof.
  unfold initialize. destruct (n <? 1); [discriminate |].
  intros E; inversion E; subst. cbn [map].
  rewrite map_repeat.
  now rewrite <- interp_zero, <- interp_one.
Qed.

(** What the exact simulator computes for a circuit is, read in the complex
    numbers, what the complex simulator yields. *)
Lemma Statevector_interp algo (w : StateVector t) :
  Statevector algo = Ok w -> Statevector algo = Ok (map interp w).
Proof.
  unfold Statevector, replay.
  destruct (initialize (A := t) (num_qubits algo)) as [v0 |] eqn:E0;
    simpl; [| discriminate].
  intros E. rewrite (initialize_interp _ E0). simpl.
  now apply replay_gates_interp.
Qed.

Lemma interp_sum (l : list t) :
  fst (interp (fold_right add azero l)) = Rsum (map (fun q => fst (interp q)) l).
Proof.
  induction l as [| q l IH]; cbn [fold_right map Rsum].
  - rewrite interp_zero. reflexivity.
  - change (add q (fold_right add azero l)) with (aadd q (fold_right add azero l)).
    rewrite interp_add. cbn [aadd Cplx_Amplitude]. unfold Cadd. cbn [fst].
    now rewrite IH.
Qed.

Lemma outcome_probability_interp qs bits (v : StateVector t) :
  outcome_probability qs bits (map interp v) =
  fst (interp (exact_outcome_probability qs bits v)).
Proof.
  unfold outcome_probability, exact_outcome_probability, probability.
  rewrite interp_sum, map_map, length_map. f_equal.
  apply map_ext. intros i. rewrite amp_interp.
  destruct (shows qs bits i); [apply Cnorm2_interp |].
  now rewrite interp_zero.
Qed.

End ExactFacts.

(** ** Sums over basis indices *)

Lemma Rsum_permutation (l l' : list R) : Permutation l l' -> Rsum l = Rsum l'.
Proof.
  induction 1 as [| r l l' _ IH | r r' l | l l' l'' _ IH1 _ IH2]; simpl.
  - reflexivity.
  - now rewrite IH.
  - lra.
  - now rewrite IH1.
Qed.

Lemma Rsum_map_add {T : Type} (f g : T -> R) (l : list T) :
  Rsum (map (fun i => f i + g i)%R l) = (Rsum (map f l) + Rsum (map g l))%R.
Proof. induction l as [| i l IH]; simpl; [| rewrite IH]; lra. Qed.

Lemma Rsum_map_ext_in {T : Type} (f g : T -> R) (l : list T) :
  (forall i, In i l -> f i = g i) -> Rsum (map f l) = Rsum (map g l).
Proof. intros Hfg. f_equal. now apply map_ext_in. Qed.

(** Flipping bit [t] permutes the basis indices of an [n]-qubit register. *)
Lemma partner_permutation (n t : nat) :
  t < n ->
  Permutation (map (fun i => partner i t) (seq 0 (2 ^ n))) (seq 0 (2 ^ n)).
Proof.
  intros Ht. apply NoDup_Permutation.
  - apply Injective_map_NoDup; [apply partner_injective | apply seq_NoDup].
  - apply seq_NoDup.
  - intros j. rewrite in_map_iff, in_seq. split.
    + intros (i & <- & Hi). apply in_seq in Hi.
      split; [lia |]. simpl. apply partner_lt; lia.
    + intros [_ Hj]. simpl in Hj. exists (partner j t). split.
      * apply partner_involutive.
      * apply in_seq. split; [lia |]. simpl. now apply partner_lt.
Qed.

Lemma Rsum_partner (f : nat -> R) (n t : nat) :
  t < n ->
  Rsum (map (fun i => f (partner i t)) (seq 0 (2 ^ n))) =
  Rsum (map f (seq 0 (2 ^ n))).
Proof.
  intros Ht.
  rewrite <- (map_map (fun i => partner i t) f).
  apply Rsum_permutation, Permutation_map, partner_permutation, Ht.
Qed.

Lemma norm2_seq (v : StateVector Cplx) :
  norm2 v = Rsum (map (fun i => Cnorm2 (amp v i)) (seq 0 (length v))).
Proof.
  unfold norm2. rewrite <- (map_map (amp v) Cnorm2).
  now rewrite map_amp_seq.
Qed.

(** ** Gates preserve the norm *)

Lemma Copp_RtoC (r : R) : Copp (RtoC r) = RtoC (- r).
Proof. cring. Qed.

Lemma isometry2_real (r00 r01 r10 r11 : R) :
  (r00 * r00 + r10 * r10 = 1)%R ->
  (r01 * r01 + r11 * r11 = 1)%R ->
  (r00 * r01 + r10 * r11 = 0)%R ->
  isometry2 (mkU (RtoC r00) (RtoC r01) (RtoC r10) (RtoC r11)).
Proof.
  intros H0 H1 H2 [a1 a2] [b1 b2].
  unfold Cnorm2, Cadd, Cmul, RtoC; simpl.
  match goal with
  | |- ?lhs = _ =>
      replace lhs with
        ((r00 * r00 + r10 * r10) * (a1 * a1 + a2 * a2)
         + (r01 * r01 + r11 * r11) * (b1 * b1 + b2 * b2)
         + 2 * (r00 * r01 + r10 * r11) * (a1 * b1 + a2 * b2))%R by ring
  end.
  rewrite H0, H1, H2. ring.
Qed.

Lemma unitary_of_isometry (k : GateKind) (U : Unitary2 Cplx) :
  unitary_of k = Some U -> isometry2 U.
Proof.
  pose proof inv_sqrt2_sqr as Hh.
  destruct k; cbn [unitary_of ahalf_angle Cplx_Amplitude];
    intros E; inversion E; subst; clear E;
    cbn [ainv_sqrt2 azero aone aopp Cplx_Amplitude];
    rewrite ?Copp_RtoC; apply isometry2_real; try lra.
  - pose proof (sin2_cos2 (theta / 2)) as Hsc. unfold Rsqr in Hsc. lra.
  - pose proof (sin2_cos2 (theta / 2)) as Hsc. unfold Rsqr in Hsc. lra.
Qed.

Lemma norm2_apply_unitary (U : Unitary2 Cplx) cs t n (v : StateVector Cplx) :
  isometry2 U ->
  existsb (Nat.eqb t) cs = false ->
  t < n ->
  length v = 2 ^ n ->
  norm2 (apply_unitary U cs t v) = norm2 v.
Proof.
  intros HU Hcs Ht Hlen.
  set (w := apply_unitary U cs t v).
  assert (Hlw : length w = 2 ^ n)
    by (unfold w; now rewrite length_apply_unitary).
  set (f := fun i => Cnorm2 (amp v i)).
  set (g := fun i => Cnorm2 (amp w i)).
  assert (Hpair : forall i, In i (seq 0 (2 ^ n)) ->
            (g i + g (partner i t) = f i + f (partner i t))%R).
  { intros i Hi. apply in_seq in Hi. simpl in Hi.
    assert (Hp : partner i t < 2 ^ n) by (apply partner_lt; lia).
    unfold g, f, w.
    rewrite !amp_apply_unitary by lia.
    rewrite all_set_partner by assumption.
    rewrite testbit_partner_same, partner_involutive.
    destruct (all_set cs i); [| reflexivity].
    cbn [aadd amul Cplx_Amplitude].
    destruct (Nat.testbit i t); cbn [negb].
    - rewrite (Rplus_comm (Cnorm2 _) (Cnorm2 _)).
      rewrite (Rplus_comm (Cnorm2 (amp v i))). apply HU.
    - apply HU. }
  rewrite (norm2_seq w), (norm2_seq v), Hlw, Hlen.
  fold g. fold f.
  pose proof (Rsum_map_ext_in _ _ _ Hpair) as Hsum.
  rewrite !Rsum_map_add in Hsum.
  rewrite (Rsum_partner g Ht), (Rsum_partner f Ht) in Hsum.
  lra.
Qed.

Lemma norm2_apply_phase_flip qs (v : StateVector Cplx) :
  norm2 (apply_phase_flip qs v) = norm2 v.
Proof.
  rewrite (norm2_seq (apply_phase_flip qs v)), (norm2_seq v).
  rewrite length_apply_phase_flip.
  apply Rsum_map_ext_in. intros i Hi. apply in_seq in Hi.
  rewrite amp_apply_phase_flip by lia.
  destruct (all_set qs i); [apply Cnorm2_opp | reflexivity].
Qed.

(** What a gate that passes the checks satisfies. *)
Lemma check_gate_ok n g :
  check_gate n g = Ok tt ->
  target g < n /\ Forall (fun q => q < n) (controls g) /\
  existsb (Nat.eqb (target g)) (controls g) = false.
Proof.
  unfold check_gate.
  destruct (forallb (fun q => q <? n) (target g :: controls g)) eqn:Hr;
    cbn [negb]; [| discriminate].
  destruct (existsb (Nat.eqb (target g)) (controls g)) eqn:He; [discriminate |].
  intros _. cbn [forallb] in Hr. apply andb_true_iff in Hr as [Hr1 Hr2].
  apply Nat.ltb_lt in Hr1. repeat split; trivial.
  apply Forall_forall. intros q Hq.
  rewrite forallb_forall in Hr2. now apply Nat.ltb_lt, Hr2.
Qed.

Lemma apply_gate_norm2 n g (v w : StateVector Cplx) :
  length v = 2 ^ n ->
  apply_gate n g v = Ok w ->
  norm2 w = norm2 v.
Proof.
  intros Hlen. unfold apply_gate.
  destruct (check_gate n g) as [[] |] eqn:Hc; cbn [bind]; [| discriminate].
  apply check_gate_ok in Hc as (Ht & _ & Hcs).
  destruct (kind g) eqn:K;
    try (destruct (unitary_of (A := Cplx) _) as [U |] eqn:EU; [| discriminate];
         intros E; inversion E; subst;
         eapply norm2_apply_unitary; eauto using unitary_of_isometry).
  intros E; inversion E; subst. apply norm2_apply_phase_flip.
Qed.

(** Over the complex numbers every kind of gate is recognized, so a gate
    that passes the checks applies. *)
Lemma apply_gate_succeeds n g (v : StateVector Cplx) :
  check_gate n g = Ok tt -> exists w, apply_gate n g v = Ok w.
Proof.
  intros Hc. unfold apply_gate. rewrite Hc. cbn [bind].
  destruct (kind g); cbn [unitary_of ahalf_angle Cplx_Amplitude]; eauto.
Qed.

(** ** Basis states *)

Lemma basis_state_interp n k :
  map Exact.interp (basis_state n k) = basis_state n k.
Proof.
  unfold basis_state. rewrite map_map. apply map_ext. intros i.
  destruct (Nat.eqb i k);
    [apply ExactFacts.interp_one | apply ExactFacts.interp_zero].
Qed.

(** A circuit replayed on a basis state, computed with exact amplitudes. *)
Lemma replay_basis_exact algo n k m :
  replay (A := Exact.t) algo (basis_state n k) = Ok (basis_state n m) ->
  replay (A := Cplx) algo (basis_state n k) = Ok (basis_state n m).
Proof.
  intros E. rewrite <- !basis_state_interp.
  now apply ExactFacts.replay_gates_interp.
Qed.

Lemma Statevector_basis_exact algo n m :
  Statevector (A := Exact.t) algo = Ok (basis_state n m) ->
  Statevector (A := Cplx) algo = Ok (basis_state n m).
Proof.
  intros E. rewrite <- basis_state_interp.
  now apply ExactFacts.Statevector_interp.
Qed.

Lemma RtoC_neq (a b : R) : a <> b -> RtoC a <> RtoC b.
Proof. intros Hab E. apply Hab. now inversion E. Qed.

(** ** bellstate.py *)

Lemma bellstate_Statevector : Statevector bellstate.algo = Ok bell_vector.
Proof.
  assert (E : Statevector (A := Exact.t) bellstate.algo =
              Ok [ainv_sqrt2; azero; azero; ainv_sqrt2]) by (vm_compute; reflexivity).
  apply ExactFacts.Statevector_interp in E. rewrite E. cbn [map].
  now rewrite ExactFacts.interp_inv_sqrt2, ExactFacts.interp_zero.
Qed.

(** C3: Hadamard on qubit 0 then controlled-X (control 0, target 1) on the
    all-zero 2-qubit register gives the amplitudes [1/sqrt 2, 0, 0, 1/sqrt 2];
    outcomes 00 and 11 have probability 1/2 each, 01 and 10 have probability
    0, so an outcome that can be observed shows equal bits. *)
Theorem bell_state_outcomes :
  Statevector bellstate.algo =
    Ok [RtoC (/ sqrt 2); RtoC 0; RtoC 0; RtoC (/ sqrt 2)] /\
  outcome_probability [0; 1] [false; false] bell_vector = (1 / 2)%R /\
  outcome_probability [0; 1] [true; true] bell_vector = (1 / 2)%R /\
  outcome_probability [0; 1] [true; false] bell_vector = 0%R /\
  outcome_probability [0; 1] [false; true] bell_vector = 0%R /\
  (forall b0 b1 : bool,
     outcome_probability [0; 1] [b0; b1] bell_vector <> 0%R -> b0 = b1).
Proof.
  pose proof inv_sqrt2_sqr as Hh.
  assert (P00 : outcome_probability [0; 1] [false; false] bell_vector = (1 / 2)%R)
    by (unfold outcome_probability, probability, Cnorm2, bell_vector, RtoC;
        simpl; lra).
  assert (P11 : outcome_probability [0; 1] [true; true] bell_vector = (1 / 2)%R)
    by (unfold outcome_probability, probability, Cnorm2, bell_vector, RtoC;
        simpl; lra).
  assert (P10 : outcome_probability [0; 1] [true; false] bell_vector = 0%R)
    by (unfold outcome_probability, probability, Cnorm2, bell_vector, RtoC;
        simpl; lra).
  assert (P01 : outcome_probability [0; 1] [false; true] bell_vector = 0%R)
    by (unfold outcome_probability, probability, Cnorm2, bell_vector, RtoC;
        simpl; lra).
  repeat split; trivial.
  - apply bellstate_Statevector.
  - intros [|] [|] Hp; trivial; contradiction.
Qed.

Lemma bell_state_outcomes_witness :
  outcome_probability [0; 1] [true; true] bell_vector <> 0%R /\ true = true.
Proof.
  assert (Hp : outcome_probability [0; 1] [true; true] bell_vector <> 0%R).
  { destruct bell_state_outcomes as (_ & _ & P11 & _). rewrite P11. lra. }
  split; [exact Hp |].
  destruct bell_state_outcomes as (_ & _ & _ & _ & _ & Himp).
  exact (Himp true true Hp).
Defined.

(** ** Circuits of X gates permute the amplitudes *)

Lemma x_index_lt n g i :
  check_gate n g = Ok tt -> i < 2 ^ n -> x_index g i < 2 ^ n.
Proof.
  intros Hc Hi. apply check_gate_ok in Hc as (Ht & _ & _).
  unfold x_index. destruct (all_set (controls g) i); [| assumption].
  now apply partner_lt.
Qed.

Lemma amp_apply_X g (v : StateVector Cplx) i :
  i < length v ->
  amp (apply_unitary (mkU azero aone aone azero) (controls g) (target g) v) i =
  amp v (x_index g i).
Proof.
  intros Hi. rewrite amp_apply_unitary by assumption. unfold x_index.
  destruct (all_set (controls g) i); [| reflexivity].
  destruct (Nat.testbit i (target g)); cbn [u00 u01 u10 u11]; cring.
Qed.

Lemma replay_X_gates n gs : forall v : StateVector Cplx,
  forallb is_PauliX gs = true ->
  Forall (fun g => check_gate n g = Ok tt) gs ->
  length v = 2 ^ n ->
  exists w, replay_gates n gs v = Ok w /\ length w = 2 ^ n /\
            forall i, i < 2 ^ n -> pull gs i < 2 ^ n /\ amp w i = amp v (pull gs i).
Proof.
  induction gs as [| g gs IH]; intros v HX Hok Hlen.
  - exists v. repeat split; trivial.
  - cbn [forallb] in HX. apply andb_true_iff in HX as [Hg HX].
    inversion Hok as [| g' gs' Hcg Hok']; subst.
    cbn [replay_gates]. unfold apply_gate at 1. rewrite Hcg. cbn [bind].
    unfold is_PauliX in Hg. destruct (kind g) eqn:K; try discriminate.
    cbn [unitary_of].
    set (v1 := apply_unitary _ (controls g) (target g) v).
    assert (Hlen1 : length v1 = 2 ^ n)
      by (unfold v1; now rewrite length_apply_unitary).
    destruct (IH v1 HX Hok' Hlen1) as (w & Hw & Hlw & Hamp).
    exists w. repeat split; trivial.
    + cbn [pull]. apply x_index_lt; [assumption | now apply Hamp].
    + destruct (Hamp i H) as [Hp ->]. cbn [pull]. unfold v1.
      apply amp_apply_X. lia.
Qed.

(** ** increment.py *)

Lemma add_increment_data algo :
  data (increment.add_increment algo) = data algo ++ increment_gates.
Proof.
  unfold increment.add_increment, ccx, cx, x, append; cbn [data].
  now rewrite <- !app_assoc.
Qed.

Lemma increment_basis k :
  k < 8 ->
  replay (A := Cplx) (increment.add_increment (new_circuit 3 0)) (basis_state 3 k) =
  Ok (basis_state 3 ((k + 1) mod 8)).
Proof.
  intros Hk.
  do 8 (destruct k as [| k]; [apply replay_basis_exact; vm_compute; reflexivity |]).
  lia.
Qed.

Lemma basis_state_neq n k m : k < 2 ^ n -> k <> m ->
  basis_state (A := Cplx) n k <> basis_state n m.
Proof.
  intros Hk Hkm E.
  assert (Ea : amp (basis_state (A := Cplx) n k) k = amp (basis_state n m) k)
    by now rewrite E.
  unfold amp, basis_state in Ea. rewrite !nth_map_seq in Ea by assumption.
  rewrite Nat.eqb_refl in Ea.
  destruct (Nat.eqb_spec k m) as [-> | _]; [now apply Hkm |].
  revert Ea. apply RtoC_neq. lra.
Qed.

(** C2, as the code has it: the script's circuit puts the register in [|2>];
    the increment sequence ccx(0,1,2), cx(0,1), x(0) takes [|2>] to exactly
    [|3>] (amplitude 1 at index 3, 0 elsewhere), and applied again takes
    [|3>] to [|4>]; the wraparound to index 0 happens from [|7>]. *)
Theorem increment_twice_from_2 :
  Statevector increment.algo1_v1 = Ok (basis_state (A := Cplx) 3 2) /\
  replay (increment.add_increment (new_circuit 3 0)) (basis_state (A := Cplx) 3 2)
    = Ok (basis_state 3 3) /\
  replay (increment.add_increment (new_circuit 3 0)) (basis_state (A := Cplx) 3 3)
    = Ok (basis_state 3 4) /\
  replay (increment.add_increment (new_circuit 3 0)) (basis_state (A := Cplx) 3 7)
    = Ok (basis_state 3 0) /\
  Statevector increment.algo1_v2 = Ok (basis_state (A := Cplx) 3 3) /\
  Statevector increment.algo1_v3 = Ok (basis_state (A := Cplx) 3 4) /\
  basis_state (A := Cplx) 3 3 =
    [RtoC 0; RtoC 0; RtoC 0; RtoC 1; RtoC 0; RtoC 0; RtoC 0; RtoC 0] /\
  basis_state (A := Cplx) 3 4 =
    [RtoC 0; RtoC 0; RtoC 0; RtoC 0; RtoC 1; RtoC 0; RtoC 0; RtoC 0].
Proof.
  repeat split.
  - apply Statevector_basis_exact. vm_compute. reflexivity.
  - apply (increment_basis (k := 2)). lia.
  - apply (increment_basis (k := 3)). lia.
  - apply (increment_basis (k := 7)). lia.
  - apply Statevector_basis_exact. vm_compute. reflexivity.
  - apply Statevector_basis_exact. vm_compute. reflexivity.
Qed.

(** The second half of C2 fails on the code: from [|3>] the sequence does
    not yield basis index 0. *)
Lemma increment_from_3_is_not_0 :
  replay (increment.add_increment (new_circuit 3 0)) (basis_state (A := Cplx) 3 3)
    <> Ok (basis_state 3 0).
Proof.
  rewrite (increment_basis (k := 3)) by lia. intros E.
  apply (@basis_state_neq 3 4 0); [simpl; lia | lia |].
  apply (f_equal (fun r => match r with Ok v => v | Err _ => [] end)) in E.
  exact E.
Qed.

(** C8: the increment sequence is the successor modulo 8. It takes every
    basis state [|k>] to [|(k+1) mod 8>], and on an arbitrary statevector the
    amplitude of index [k] moves to index [(k+1) mod 8]. *)
Theorem increment_is_successor_mod_8 :
  (forall k, k < 8 ->
     replay (increment.add_increment (new_circuit 3 0)) (basis_state (A := Cplx) 3 k)
       = Ok (basis_state 3 ((k + 1) mod 8))) /\
  (forall v : StateVector Cplx, length v = 8 ->
     exists w, replay (increment.add_increment (new_circuit 3 0)) v = Ok w /\
               length w = 8 /\
               forall k, k < 8 -> amp w ((k + 1) mod 8) = amp v k).
Proof.
  split; [exact increment_basis |].
  intros v Hlen.
  destruct (@replay_X_gates 3 increment_gates v) as (w & Hw & Hlw & Hamp).
  - reflexivity.
  - repeat constructor.
  - exact Hlen.
  - exists w. repeat split; trivial.
    intros k Hk.
    assert (Hi : (k + 1) mod 8 < 2 ^ 3)
      by (change (2 ^ 3) with 8; apply Nat.mod_upper_bound; lia).
    destruct (Hamp _ Hi) as [_ ->]. f_equal.
    do 8 (destruct k as [| k]; [reflexivity |]). lia.
Qed.

Lemma increment_is_successor_mod_8_witness :
  replay (increment.add_increment (new_circuit 3 0)) (basis_state (A := Cplx) 3 7)
    = Ok (basis_state 3 ((7 + 1) mod 8)).
Proof. apply (proj1 increment_is_successor_mod_8 7). lia. Defined.

(** ** grover.py and grover_simple.py: the verify oracle *)

(** The two scripts define the same fragments. *)
Lemma grover_fragments_agree algo :
  grover.add_verify algo = grover_simple.add_verify algo /\
  grover.add_verify_with_h algo = grover_simple.add_verify_with_h algo /\
  grover.add_prepare algo = grover_simple.add_prepare algo /\
  grover.add_reverse algo = grover_simple.add_reverse algo /\
  grover.add_amplify algo = grover_simple.add_amplify algo /\
  grover.algo4 = grover_simple.algo4.
Proof. repeat split. Qed.

(** C9: the verify oracle x(1), ccx(0,1,2), x(1) of both Grover scripts takes
    every 3-qubit basis state [|b>] to the basis state whose bit 2 is the
    exclusive or of bit 2 of [b] with (bit 0 and not bit 1), bits 0 and 1
    unchanged; a candidate with both bits set is left as it is. *)
Theorem verify_oracle_marks_bit0_and_not_bit1 (b : nat) :
  b < 8 ->
  replay (grover.add_verify (new_circuit 3 0)) (basis_state (A := Cplx) 3 b)
    = Ok (basis_state 3 (verify_image b)) /\
  replay (grover_simple.add_verify (new_circuit 3 0)) (basis_state (A := Cplx) 3 b)
    = Ok (basis_state 3 (verify_image b)) /\
  Nat.testbit (verify_image b) 0 = Nat.testbit b 0 /\
  Nat.testbit (verify_image b) 1 = Nat.testbit b 1 /\
  Nat.testbit (verify_image b) 2 =
    xorb (Nat.testbit b 2) (Nat.testbit b 0 && negb (Nat.testbit b 1)) /\
  (Nat.testbit b 0 && Nat.testbit b 1 = true -> verify_image b = b).
Proof.
  intros Hb.
  do 8 (destruct b as [| b];
        [repeat split; try discriminate;
         apply replay_basis_exact; vm_compute; reflexivity |]).
  lia.
Qed.

Lemma verify_oracle_marks_bit0_and_not_bit1_witness :
  replay (grover.add_verify (new_circuit 3 0)) (basis_state (A := Cplx) 3 1)
    = Ok (basis_state 3 5) /\
  replay (grover.add_verify (new_circuit 3 0)) (basis_state (A := Cplx) 3 3)
    = Ok (basis_state 3 3).
Proof.
  split.
  - apply (@verify_oracle_marks_bit0_and_not_bit1 1). lia.
  - apply (@verify_oracle_marks_bit0_and_not_bit1 3). lia.
Defined.

(** ** grover.py and grover_simple.py: the search *)

Lemma grover_Statevector : Statevector grover_simple.algo4 = Ok grover_vector.
Proof.
  apply ExactFacts.Statevector_interp. vm_compute. reflexivity.
Qed.

Lemma grover_outcome (bits : list bool) (p : Q) :
  exact_outcome_probability grover_simple.measured bits grover_exact = Exact.mk p 0 ->
  outcome_probability grover_simple.measured bits grover_vector = Q2R p.
Proof.
  intros E. unfold grover_vector.
  rewrite ExactFacts.outcome_probability_interp, E.
  unfold Exact.interp, RtoC; cbn [fst Exact.rat Exact.irr].
  unfold Q2R at 2; simpl. lra.
Qed.

Lemma grover_probability_marked :
  outcome_probability grover_simple.measured [true; false] grover_vector = (13 / 16)%R.
Proof.
  rewrite (@grover_outcome _ (13 # 16)%Q) by (vm_compute; reflexivity).
  unfold Q2R; simpl; lra.
Qed.

Lemma grover_probability_unmarked (b0 b1 : bool) :
  (b0, b1) <> (true, false) ->
  outcome_probability grover_simple.measured [b0; b1] grover_vector = (1 / 16)%R.
Proof.
  intros Hb.
  destruct b0, b1; try congruence;
    rewrite (@grover_outcome _ (1 # 16)%Q) by (vm_compute; reflexivity);
    unfold Q2R; simpl; lra.
Qed.

(** With the oracle h(2), ccx(0,1,2), h(2), whose marking circuit is the
    predicate "bits 0 and 1 both set" that grover.py applies in [algo1], the
    same search gives the outcome 11 the probability 13/16 as well. *)
Remark grover_both_set_oracle :
  exists w : StateVector Exact.t,
    Statevector (new_circuit 3 2
                 |> grover_simple.add_prepare
                 |> h 2 |> ccx 0 1 2 |> h 2
                 |> grover_simple.add_amplify) = Ok (map Exact.interp w) /\
    outcome_probability [0; 1] [true; true] (map Exact.interp w) = (13 / 16)%R.
Proof.
  eexists. split.
  - apply ExactFacts.Statevector_interp. vm_compute. reflexivity.
  - rewrite ExactFacts.outcome_probability_interp.
    match goal with
    | |- fst (Exact.interp ?e) = _ =>
        replace e with (Exact.mk (13 # 16) 0) by (vm_compute; reflexivity)
    end.
    unfold Exact.interp, RtoC, Q2R; simpl. lra.
Qed.

(** C1, as the code has it: the oracle of [algo4] marks "qubit 0 set and
    qubit 1 clear" (C9), and after prepare, oracle and one amplify round the
    marked outcome is measured on qubits 0 and 1 with probability 13/16,
    each of the three other outcomes, 11 among them, with probability 1/16. *)
Theorem grover_outcome_probabilities :
  Statevector grover_simple.algo4 = Ok grover_vector /\
  Statevector grover.algo4 = Ok grover_vector /\
  outcome_probability grover_simple.measured [true; false] grover_vector = (13 / 16)%R /\
  outcome_probability grover_simple.measured [true; true] grover_vector = (1 / 16)%R /\
  outcome_probability grover_simple.measured [false; true] grover_vector = (1 / 16)%R /\
  outcome_probability grover_simple.measured [false; false] grover_vector = (1 / 16)%R.
Proof.
  repeat split.
  - apply grover_Statevector.
  - apply grover_Statevector.
  - apply grover_probability_marked.
  - apply grover_probability_unmarked. congruence.
  - apply grover_probability_unmarked. congruence.
  - apply grover_probability_unmarked. congruence.
Qed.

(** C1 fails on the code: the statevector of [algo4] does not give the
    outcome 11 on qubits 0 and 1 a probability above 0.9. *)
Lemma grover_11_not_above_09 :
  exists v : StateVector Cplx,
    Statevector grover_simple.algo4 = Ok v /\
    ~ (outcome_probability grover_simple.measured [true; true] v > 9 / 10)%R.
Proof.
  exists grover_vector. split; [apply grover_Statevector |].
  rewrite grover_probability_unmarked by congruence. lra.
Qed.

(** ** Normalization *)

Lemma gate_ok_check n g : gate_ok n g = true -> check_gate n g = Ok tt.
Proof.
  unfold gate_ok. destruct (check_gate n g) as [[] |]; [reflexivity | discriminate].
Qed.

Lemma norm2_one_within (w : StateVector Cplx) :
  norm2 w = 1%R -> normalized_within default_tolerance w.
Proof.
  intros E. unfold normalized_within, default_tolerance. rewrite E.
  replace (1 - 1)%R with 0%R by ring. rewrite Rabs_R0. lra.
Qed.

Lemma initialize_normalized n :
  1 <= n ->
  exists v : StateVector Cplx,
    initialize n = Ok v /\ length v = 2 ^ n /\ norm2 v = 1%R.
Proof.
  intros Hn. unfold initialize.
  destruct (Nat.ltb_spec n 1) as [Hlt | _]; [lia |].
  eexists. split; [reflexivity |]. split.
  - cbn [length]. rewrite repeat_length.
    assert (2 ^ n <> 0) by (apply Nat.pow_nonzero; lia). lia.
  - unfold norm2. cbn [map Rsum].
    assert (Hz : forall k, Rsum (map Cnorm2 (repeat (azero : Cplx) k)) = 0%R).
    { induction k as [| k IH]; cbn [repeat map Rsum]; [reflexivity |].
      rewrite IH. unfold Cnorm2; simpl. ring. }
    rewrite Hz. unfold Cnorm2; simpl. ring.
Qed.

Lemma replay_gates_normalized n gs : forall v : StateVector Cplx,
  forallb (gate_ok n) gs = true ->
  length v = 2 ^ n ->
  norm2 v = 1%R ->
  exists w, replay_gates n gs v = Ok w /\ length w = 2 ^ n /\ norm2 w = 1%R.
Proof.
  induction gs as [| g gs IH]; intros v Hok Hlen Hnorm.
  - exists v. auto.
  - cbn [forallb] in Hok. apply andb_true_iff in Hok as [Hg Hok].
    apply gate_ok_check in Hg.
    destruct (@apply_gate_succeeds n g v Hg) as [v1 E1].
    cbn [replay_gates]. rewrite E1. cbn [bind].
    apply IH; trivial.
    + rewrite (@apply_gate_length _ _ n g v v1 E1). exact Hlen.
    + rewrite (@apply_gate_norm2 n g v v1 Hlen E1). exact Hnorm.
Qed.

Lemma forallb_firstn {T : Type} (f : T -> bool) (k : nat) (l : list T) :
  forallb f l = true -> forallb f (firstn k l) = true.
Proof.
  intros Hl. rewrite <- (firstn_skipn k l), forallb_app in Hl.
  now apply andb_true_iff in Hl.
Qed.

Lemma valid_circuit_normalized algo k :
  valid_circuit algo = true ->
  exists w : StateVector Cplx,
    Statevector (prefix k algo) = Ok w /\ norm2 w = 1%R.
Proof.
  unfold valid_circuit. intros Hv. apply andb_true_iff in Hv as [Hn Hg].
  apply Nat.leb_le in Hn.
  destruct (@initialize_normalized _ Hn) as (v0 & E0 & Hlen & Hnorm).
  destruct (@replay_gates_normalized (num_qubits algo)
              (firstn k (data algo)) v0) as (w & Ew & _ & Hw); trivial.
  - now apply forallb_firstn.
  - exists w. split; [| exact Hw].
    unfold Statevector, prefix; cbn [num_qubits]. rewrite E0. exact Ew.
Qed.

(** C4: a gate of any recognized kind on valid qubit indices takes a
    statevector whose squared magnitudes sum to 1 to one whose squared
    magnitudes sum to 1, which is within the tolerance 1e-6 of 1; and so the
    statevector after every prefix of every circuit of the scripts is
    normalized. *)
Theorem normalization_invariant :
  (forall (n : nat) (g : Gate) (v : StateVector Cplx),
     length v = 2 ^ n ->
     check_gate n g = Ok tt ->
     norm2 v = 1%R ->
     exists w, apply_gate n g v = Ok w /\ length w = 2 ^ n /\
               norm2 w = 1%R /\ normalized_within default_tolerance w) /\
  (forall (algo : QuantumCircuit) (k : nat),
     In algo script_circuits ->
     exists w : StateVector Cplx,
       Statevector (prefix k algo) = Ok w /\
       norm2 w = 1%R /\ normalized_within default_tolerance w).
Proof.
  split.
  - intros n g v Hlen Hc Hnorm.
    destruct (@apply_gate_succeeds n g v Hc) as [w E]. exists w.
    assert (Hw : norm2 w = 1%R)
      by (rewrite (@apply_gate_norm2 n g v w Hlen E); exact Hnorm).
    repeat split; trivial.
    + rewrite (@apply_gate_length _ _ n g v w E). exact Hlen.
    + now apply norm2_one_within.
  - intros algo k Hin.
    assert (Hv : valid_circuit algo = true).
    { unfold script_circuits in Hin. cbn [In] in Hin.
      repeat (destruct Hin as [<- | Hin]; [reflexivity |]). contradiction. }
    destruct (@valid_circuit_normalized algo k Hv) as (w & E & Hw).
    exists w. repeat split; trivial. now apply norm2_one_within.
Qed.

Lemma normalization_invariant_witness :
  (exists w, apply_gate 1 (mkGate (RotationY 1) [] 0) [RtoC 1; RtoC 0] = Ok w /\
             length w = 2 ^ 1 /\ norm2 w = 1%R /\
             normalized_within default_tolerance w) /\
  (exists w : StateVector Cplx,
     Statevector (prefix 7 grover.algo4) = Ok w /\
     norm2 w = 1%R /\ normalized_within default_tolerance w).
Proof.
  split.
  - apply (proj1 normalization_invariant 1 (mkGate (RotationY 1) [] 0)).
    + reflexivity.
    + reflexivity.
    + unfold norm2, Cnorm2, RtoC; simpl. lra.
  - apply (proj2 normalization_invariant grover.algo4 7).
    unfold script_circuits. cbn [In]. do 8 right. left. reflexivity.
Defined.

(** ** Self-inverse gates *)

Lemma check_single n k t : t < n -> check_gate n (mkGate k [] t) = Ok tt.
Proof.
  intros Ht. unfold check_gate; cbn [target controls forallb existsb].
  apply Nat.ltb_lt in Ht. now rewrite Ht.
Qed.

Lemma HH_low (a b : Cplx) :
  Cadd (Cmul ainv_sqrt2 (Cadd (Cmul ainv_sqrt2 a) (Cmul ainv_sqrt2 b)))
       (Cmul ainv_sqrt2 (Cadd (Cmul ainv_sqrt2 a) (Cmul (Copp ainv_sqrt2) b))) = a.
Proof.
  pose proof inv_sqrt2_sqr as Hh. destruct a as [a1 a2].
  cbn [ainv_sqrt2 Cplx_Amplitude]. unfold Cadd, Cmul, Copp, RtoC; cbn [fst snd].
  f_equal.
  - transitivity (2 * (/ sqrt 2 * / sqrt 2) * a1)%R; [ring | rewrite Hh; lra].
  - transitivity (2 * (/ sqrt 2 * / sqrt 2) * a2)%R; [ring | rewrite Hh; lra].
Qed.

Lemma HH_high (a b : Cplx) :
  Cadd (Cmul ainv_sqrt2 (Cadd (Cmul ainv_sqrt2 a) (Cmul ainv_sqrt2 b)))
       (Cmul (Copp ainv_sqrt2)
             (Cadd (Cmul ainv_sqrt2 a) (Cmul (Copp ainv_sqrt2) b))) = b.
Proof.
  pose proof inv_sqrt2_sqr as Hh. destruct b as [b1 b2].
  cbn [ainv_sqrt2 Cplx_Amplitude]. unfold Cadd, Cmul, Copp, RtoC; cbn [fst snd].
  f_equal.
  - transitivity (2 * (/ sqrt 2 * / sqrt 2) * b1)%R; [ring | rewrite Hh; lra].
  - transitivity (2 * (/ sqrt 2 * / sqrt 2) * b2)%R; [ring | rewrite Hh; lra].
Qed.

Lemma apply_X_twice n t (v : StateVector Cplx) :
  length v = 2 ^ n -> t < n ->
  apply_unitary (mkU azero aone aone azero) [] t
    (apply_unitary (mkU azero aone aone azero) [] t v) = v.
Proof.
  intros Hlen Ht. apply nth_ext with (d := azero) (d' := azero).
  - now rewrite !length_apply_unitary.
  - intros i Hi. rewrite !length_apply_unitary in Hi.
    assert (Hp : partner i t < length v)
      by (rewrite Hlen in *; now apply partner_lt).
    fold (amp (apply_unitary (mkU azero aone aone azero) [] t
                 (apply_unitary (mkU azero aone aone azero) [] t v)) i).
    fold (amp v i).
    rewrite (amp_apply_X (mkGate PauliX [] t))
      by now rewrite length_apply_unitary.
    unfold x_index; cbn [controls target all_set forallb].
    rewrite (amp_apply_X (mkGate PauliX [] t)) by exact Hp.
    unfold x_index; cbn [controls target all_set forallb].
    now rewrite partner_involutive.
Qed.

Lemma apply_H_twice n t (v : StateVector Cplx) :
  length v = 2 ^ n -> t < n ->
  apply_unitary (mkU ainv_sqrt2 ainv_sqrt2 ainv_sqrt2 (aopp ainv_sqrt2)) [] t
    (apply_unitary (mkU ainv_sqrt2 ainv_sqrt2 ainv_sqrt2 (aopp ainv_sqrt2)) [] t v)
  = v.
Proof.
  intros Hlen Ht. apply nth_ext with (d := azero) (d' := azero).
  - now rewrite !length_apply_unitary.
  - intros i Hi. rewrite !length_apply_unitary in Hi.
    assert (Hp : partner i t < length v)
      by (rewrite Hlen in *; now apply partner_lt).
    set (U := mkU ainv_sqrt2 ainv_sqrt2 ainv_sqrt2 (aopp ainv_sqrt2)).
    fold (amp (apply_unitary U [] t (apply_unitary U [] t v)) i).
    fold (amp v i).
    rewrite amp_apply_unitary by now rewrite length_apply_unitary.
    rewrite !(amp_apply_unitary U [] t v) by assumption.
    rewrite testbit_partner_same, partner_involutive.
    cbn [all_set forallb U u00 u01 u10 u11 aadd amul aopp Cplx_Amplitude].
    destruct (Nat.testbit i t); cbn [negb].
    + apply HH_high.
    + apply HH_low.
Qed.

(** C5: on an n-qubit statevector and a qubit t below n, Pauli-X applied
    twice gives back the statevector, and so does Hadamard applied twice. *)
Theorem X_and_H_are_self_inverse (n t : nat) (v : StateVector Cplx) :
  length v = 2 ^ n ->
  t < n ->
  apply_gate n (mkGate PauliX [] t) v >>= apply_gate n (mkGate PauliX [] t) = Ok v /\
  apply_gate n (mkGate Hadamard [] t) v >>= apply_gate n (mkGate Hadamard [] t) = Ok v.
Proof.
  intros Hlen Ht. unfold apply_gate.
  rewrite !check_single by assumption.
  cbn [bind kind unitary_of controls target].
  split; f_equal.
  - now apply apply_X_twice with (n := n).
  - now apply apply_H_twice with (n := n).
Qed.

Lemma X_and_H_are_self_inverse_witness :
  apply_gate 1 (mkGate PauliX [] 0) [RtoC 1; RtoC 0]
    >>= apply_gate 1 (mkGate PauliX [] 0) = Ok [RtoC 1; RtoC 0] /\
  apply_gate 1 (mkGate Hadamard [] 0) [RtoC 1; RtoC 0]
    >>= apply_gate 1 (mkGate Hadamard [] 0) = Ok [RtoC 1; RtoC 0].
Proof.
  apply (@X_and_H_are_self_inverse 1 0 [RtoC 1; RtoC 0]).
  - reflexivity.
  - lia.
Defined.

(** ** Composition *)

(** C6: two programs over the same number of qubits compose; the gates of
    the composite are those of the first followed by those of the second,
    composition is associative, and replaying the composite on a statevector
    is replaying the first and then the second on the result. The circuit
    [algo4] of the Grover scripts is the composite of its three fragments. *)
Theorem replay_of_composition {A : Type} {AmpA : Amplitude A}
    (a b c : QuantumCircuit) (v : StateVector A) :
  num_qubits a = num_qubits b ->
  num_qubits b = num_qubits c ->
  (exists ab, compose a b = Ok ab /\
              data ab = data a ++ data b /\
              replay ab v = replay a v >>= replay b) /\
  (compose a b >>= fun ab => compose ab c) =
  (compose b c >>= fun bc => compose a bc) /\
  (compose (grover_simple.add_prepare (new_circuit 3 2))
           (grover_simple.add_verify_with_h (new_circuit 3 2))
     >>= fun pv => compose pv (grover_simple.add_amplify (new_circuit 3 2))) =
  Ok grover_simple.algo4.
Proof.
  intros Hab Hbc. split; [| split; [| reflexivity]]; unfold compose.
  - rewrite Hab, Nat.eqb_refl.
    eexists. split; [reflexivity |]. split; [reflexivity |].
    unfold replay; cbn [num_qubits data]. rewrite ?Hab.
    apply replay_gates_app.
  - rewrite Hab, Hbc, !Nat.eqb_refl. cbn [bind num_qubits data].
    rewrite ?Nat.eqb_refl. now rewrite app_assoc.
Qed.

Lemma replay_of_composition_witness :
  (exists ab,
     compose (grover_simple.add_prepare (new_circuit 3 2))
             (grover_simple.add_verify_with_h (new_circuit 3 2)) = Ok ab /\
     data ab = data (grover_simple.add_prepare (new_circuit 3 2)) ++
               data (grover_simple.add_verify_with_h (new_circuit 3 2)) /\
     replay ab (basis_state (A := Exact.t) 3 0) =
       replay (grover_simple.add_prepare (new_circuit 3 2)) (basis_state 3 0)
       >>= replay (grover_simple.add_verify_with_h (new_circuit 3 2))) /\
  (compose (grover_simple.add_prepare (new_circuit 3 2))
           (grover_simple.add_verify_with_h (new_circuit 3 2))
     >>= fun ab => compose ab (grover_simple.add_amplify (new_circuit 3 2))) =
  (compose (grover_simple.add_verify_with_h (new_circuit 3 2))
           (grover_simple.add_amplify (new_circuit 3 2))
     >>= fun bc => compose (grover_simple.add_prepare (new_circuit 3 2)) bc) /\
  (compose (grover_simple.add_prepare (new_circuit 3 2))
           (grover_simple.add_verify_with_h (new_circuit 3 2))
     >>= fun pv => compose pv (grover_simple.add_amplify (new_circuit 3 2))) =
  Ok grover_simple.algo4.
Proof.
  apply (@replay_of_composition Exact.t Exact_Amplitude
           (grover_simple.add_prepare (new_circuit 3 2))
           (grover_simple.add_verify_with_h (new_circuit 3 2))
           (grover_simple.add_amplify (new_circuit 3 2))
           (basis_state 3 0)); reflexivity.
Defined.

(** ** The controlled phase flip *)

Lemma Copp_minus_one (a : Cplx) : Copp a = Cmul (RtoC (-1)) a.
Proof. cring. Qed.

(** C7: the controlled phase flip on a list of qubits (doubly-controlled-Z
    for two controls and a target) multiplies the amplitude by -1 at the
    basis indices where all listed qubits are 1 and leaves it unchanged at
    every other index; all magnitudes are unchanged. For ccz(0,1,2) on three
    qubits the index negated is 7 alone. *)
Theorem phase_flip_semantics (n : nat) (g : Gate) (v : StateVector Cplx) :
  kind g = PhaseFlip ->
  check_gate n g = Ok tt ->
  length v = 2 ^ n ->
  (exists w, apply_gate n g v = Ok w /\ length w = 2 ^ n /\
     forall i, i < 2 ^ n ->
       amp w i = (if all_set (controls g ++ [target g]) i
                  then Cmul (RtoC (-1)) (amp v i)
                  else amp v i) /\
       Cnorm2 (amp w i) = Cnorm2 (amp v i)) /\
  (forall i, i < 2 ^ 3 -> all_set ([0; 1] ++ [2]) i = Nat.eqb i 7).
Proof.
  intros Hk Hc Hlen. split.
  - unfold apply_gate. rewrite Hc, Hk. cbn [bind].
    eexists. split; [reflexivity |]. split.
    + now rewrite length_apply_phase_flip.
    + intros i Hi. rewrite amp_apply_phase_flip by lia.
      cbn [aopp Cplx_Amplitude].
      destruct (all_set (controls g ++ [target g]) i).
      * split; [apply Copp_minus_one | apply Cnorm2_opp].
      * split; reflexivity.
  - intros i Hi. change (2 ^ 3) with 8 in Hi.
    do 8 (destruct i as [| i]; [reflexivity |]). lia.
Qed.

Lemma phase_flip_semantics_witness :
  (exists w,
     apply_gate 3 (mkGate PhaseFlip [0; 1] 2) (basis_state (A := Cplx) 3 7) = Ok w /\
     length w = 2 ^ 3 /\
     forall i, i < 2 ^ 3 ->
       amp w i = (if all_set ([0; 1] ++ [2]) i
                  then Cmul (RtoC (-1)) (amp (basis_state 3 7) i)
                  else amp (basis_state 3 7) i) /\
       Cnorm2 (amp w i) = Cnorm2 (amp (basis_state 3 7) i)) /\
  (forall i, i < 2 ^ 3 -> all_set ([0; 1] ++ [2]) i = Nat.eqb i 7).
Proof.
  apply (@phase_flip_semantics 3 (mkGate PhaseFlip [0; 1] 2) (basis_state 3 7));
    reflexivity.
Defined.

(** ** thirds.py *)

Lemma Cmul_RtoC (a b : R) : Cmul (RtoC a) (RtoC b) = RtoC (a * b).
Proof. cring. Qed.

Lemma Cadd_RtoC (a b : R) : Cadd (RtoC a) (RtoC b) = RtoC (a + b).
Proof. cring. Qed.

(** Brings an expression over real amplitudes to a single [RtoC]. *)
Ltac real_amplitudes :=
  repeat first [rewrite Copp_RtoC | rewrite Cmul_RtoC | rewrite Cadd_RtoC].

Section Thirds.

Local Open Scope R_scope.

(** *** The circuit for arbitrary angles *)

Lemma thirds_circuit_Statevector (a1 a2 : R) :
  Statevector (thirds_circuit a1 a2) = Ok (thirds_state a1 a2).
Proof.
  unfold Statevector, replay, thirds_circuit, initialize, thirds_state.
  cbn -[cos sin Cadd Cmul Copp RtoC].
  replace (- a2 / 2) with (- (a2 / 2)) by lra.
  rewrite cos_neg, sin_neg.
  assert (E : 2 * (a2 / 2) = a2) by lra.
  pose proof (sin2_cos2 (a2 / 2)) as Hcs. unfold Rsqr in Hcs.
  pose proof (cos_2a (a2 / 2)) as Hd. rewrite E in Hd.
  pose proof (sin_2a (a2 / 2)) as Hp. rewrite E in Hp.
  set (c := cos (a2 / 2)) in *.
  set (s := sin (a2 / 2)) in *.
  set (c1 := cos (a1 / 2)) in *.
  set (s1 := sin (a1 / 2)) in *.
  set (C2 := cos a2) in *.
  set (S2 := sin a2) in *.
  set (hh := / sqrt 2) in *.
  clearbody c s c1 s1 hh C2 S2.
  real_amplitudes.
  apply f_equal.
  repeat (apply f_equal2; [apply (f_equal RtoC) |]); try reflexivity.
  - transitivity ((hh * c1) * (s * s + c * c)); [ring | rewrite Hcs; ring].
  - transitivity ((hh * c1) * (s * s + c * c)); [ring | rewrite Hcs; ring].
  - rewrite Hd, Hp. ring.
  - rewrite Hd, Hp. ring.
Qed.

(** *** The exact angles *)

Lemma sqrt_third_bounds : 0 <= sqrt (1 / 3) <= 1.
Proof.
  split; [apply sqrt_pos |].
  rewrite <- sqrt_1 at 2. apply sqrt_le_1_alt. lra.
Qed.

Lemma sqrt_third_sqr : sqrt (1 / 3) * sqrt (1 / 3) = 1 / 3.
Proof. apply sqrt_sqrt. lra. Qed.

Lemma half_ideal_angle1 : ideal_angle1 / 2 = asin (sqrt (1 / 3)).
Proof. unfold ideal_angle1. lra. Qed.

Lemma sin_half_ideal_angle1 : sin (ideal_angle1 / 2) = sqrt (1 / 3).
Proof.
  rewrite half_ideal_angle1. apply sin_asin. pose proof sqrt_third_bounds. lra.
Qed.

(** [cos (ideal_angle1 / 2)] is [sqrt (2/3)], and a Hadamard coefficient
    times it is [sqrt (1/3)]. *)
Lemma cos_half_ideal_angle1 :
  / sqrt 2 * cos (ideal_angle1 / 2) = sqrt (1 / 3).
Proof.
  rewrite half_ideal_angle1, cos_asin by (pose proof sqrt_third_bounds; lra).
  symmetry. apply sqrt_lem_1.
  - lra.
  - apply Rmult_le_pos; [| apply sqrt_pos].
    left. apply Rinv_0_lt_compat, sqrt2_pos.
  - pose proof inv_sqrt2_sqr as Hh. pose proof sqrt_third_sqr as H3.
    set (r := sqrt (1 - (sqrt (1 / 3))²)).
    assert (Hr : r * r = 2 / 3).
    { unfold r. rewrite sqrt_sqrt; unfold Rsqr; rewrite H3; lra. }
    transitivity ((/ sqrt 2 * / sqrt 2) * (r * r)); [ring |].
    rewrite Hh, Hr. lra.
Qed.

Lemma thirds_state_ideal : thirds_state ideal_angle1 ideal_angle2 = thirds_vector.
Proof.
  unfold thirds_state, thirds_vector.
  rewrite cos_half_ideal_angle1, sin_half_ideal_angle1.
  unfold ideal_angle2. rewrite cos_PI4, sin_PI4.
  pose proof inv_sqrt2_sqr as Hh.
  repeat (apply f_equal2; [apply (f_equal RtoC) |]); try reflexivity.
  - transitivity (sqrt (1 / 3) * (2 * (/ sqrt 2 * / sqrt 2)));
      [unfold Rdiv; ring | rewrite Hh; lra].
  - unfold Rdiv; ring.
Qed.

(** *** Sine and cosine at a fraction *)

Lemma Q2R_1 : Q2R 1 = 1.
Proof. unfold Q2R; simpl; lra. Qed.

Lemma Q2R_of_nat (k : nat) : Q2R (inject_Z (Z.of_nat k)) = INR k.
Proof. unfold Q2R; simpl. rewrite INR_IZR_INZ. lra. Qed.

Lemma of_nat_nonzero (k : nat) : k <> O -> ~ (inject_Z (Z.of_nat k) == 0)%Q.
Proof.
  intros Hk E. apply Qeq_eqR in E. rewrite Q2R_of_nat in E.
  replace (Q2R 0) with 0 in E by (unfold Q2R; simpl; lra).
  now apply (not_0_INR k Hk).
Qed.

(** A sequence whose consecutive terms have the ratio [- x / den j] sums to
    its first term times the Horner form. *)
Lemma sum_horner (f : nat -> R) (x : Q) (den : nat -> nat) :
  (forall j, den j <> O) ->
  (forall j, f (S j) = f j * - (Q2R x / INR (den j))) ->
  forall n j,
    sum_f_R0 (fun i => f (j + i)%nat) n = f j * Q2R (hornerQ x den j n).
Proof.
  intros Hden Hf. induction n as [| n IH]; intros j.
  - cbn [sum_f_R0 hornerQ]. rewrite Nat.add_0_r, Q2R_1. ring.
  - rewrite decomp_sum by lia. cbn [pred].
    rewrite Nat.add_0_r.
    rewrite (sum_eq _ (fun i => f (S j + i)%nat))
      by (intros i _; f_equal; lia).
    rewrite IH, Hf. cbn [hornerQ].
    rewrite Q2R_minus, Q2R_mult, Q2R_div by (apply of_nat_nonzero, Hden).
    rewrite Q2R_of_nat, Q2R_1. ring.
Qed.

Lemma sin_term_ratio (a : R) (j : nat) :
  sin_term a (S j) = sin_term a j * - (a * a / INR (sin_den j)).
Proof.
  unfold sin_term, sin_den.
  replace (2 * S j + 1)%nat with (S (S (2 * j + 1))) by lia.
  replace (2 * j + 2)%nat with (S (2 * j + 1)) by lia.
  replace (2 * j + 3)%nat with (S (S (2 * j + 1))) by lia.
  set (k := (2 * j + 1)%nat).
  rewrite !fact_simpl, !mult_INR. cbn [pow].
  pose proof (INR_fact_neq_0 k). pose proof (not_0_INR (S k)).
  pose proof (not_0_INR (S (S k))).
  field. repeat split; auto.
Qed.

Lemma cos_term_ratio (a : R) (j : nat) :
  cos_term a (S j) = cos_term a j * - (a * a / INR (cos_den j)).
Proof.
  unfold cos_term, cos_den.
  replace (2 * S j)%nat with (S (S (2 * j))) by lia.
  replace (2 * j + 1)%nat with (S (2 * j)) by lia.
  replace (2 * j + 2)%nat with (S (S (2 * j))) by lia.
  set (k := (2 * j)%nat).
  rewrite !fact_simpl, !mult_INR. cbn [pow].
  pose proof (INR_fact_neq_0 k). pose proof (not_0_INR (S k)).
  pose proof (not_0_INR (S (S k))).
  field. repeat split; auto.
Qed.

Lemma Q2R_sin_approxQ (a : Q) (n : nat) :
  Q2R (sin_approxQ a n) = sin_approx (Q2R a) n.
Proof.
  unfold sin_approxQ, sin_approx.
  transitivity (sin_term (Q2R a) 0 * Q2R (hornerQ (a * a)%Q sin_den 0 n)).
  { rewrite Q2R_mult. f_equal. unfold sin_term. simpl. field. }
  rewrite <- (@sum_horner (sin_term (Q2R a)) (a * a)%Q sin_den).
  - reflexivity.
  - intros j. unfold sin_den. lia.
  - intros j. rewrite Q2R_mult. apply sin_term_ratio.
Qed.

Lemma Q2R_cos_approxQ (a : Q) (n : nat) :
  Q2R (cos_approxQ a n) = cos_approx (Q2R a) n.
Proof.
  unfold cos_approxQ, cos_approx.
  transitivity (cos_term (Q2R a) 0 * Q2R (hornerQ (a * a)%Q cos_den 0 n)).
  { unfold cos_term. simpl. field. }
  rewrite <- (@sum_horner (cos_term (Q2R a)) (a * a)%Q cos_den).
  - reflexivity.
  - intros j. unfold cos_den. lia.
  - intros j. rewrite Q2R_mult. apply cos_term_ratio.
Qed.

Lemma Qle_bool_R (p q : Q) : Qle_bool p q = true -> Q2R p <= Q2R q.
Proof. intros E. apply Qle_Rle, Qle_bool_iff, E. Qed.

Lemma Qlt_bool_R (p q : Q) : Qle_bool q p = false -> Q2R p < Q2R q.
Proof.
  intros E. apply Qlt_Rlt, Qnot_le_lt. intros Hle.
  apply Qle_bool_iff in Hle. congruence.
Qed.

(** The sine of a fraction between 0 and 4 lies between its two partial
    sums. *)
Lemma sin_between (a : Q) :
  Qle_bool 0 a = true -> Qle_bool a 4 = true ->
  Q2R (sin_lo a) <= sin (Q2R a) <= Q2R (sin_hi a).
Proof.
  intros H0 H4. apply Qle_bool_R in H0, H4.
  replace (Q2R 0) with 0 in H0 by (unfold Q2R; simpl; lra).
  replace (Q2R 4) with 4 in H4 by (unfold Q2R; simpl; lra).
  unfold sin_lo, sin_hi. rewrite !Q2R_sin_approxQ.
  apply (pre_sin_bound (Q2R a) 4); assumption.
Qed.

(** The cosine of a fraction between -2 and 2 lies between its two partial
    sums. *)
Lemma cos_between (a : Q) :
  Qle_bool (-2) a = true -> Qle_bool a 2 = true ->
  Q2R (cos_lo a) <= cos (Q2R a) <= Q2R (cos_hi a).
Proof.
  intros H0 H2. apply Qle_bool_R in H0, H2.
  replace (Q2R (-2)) with (-2) in H0 by (unfold Q2R; simpl; lra).
  replace (Q2R 2) with 2 in H2 by (unfold Q2R; simpl; lra).
  unfold cos_lo, cos_hi. rewrite !Q2R_cos_approxQ.
  apply (pre_cos_bound (Q2R a) 4); assumption.
Qed.

End Thirds.

(** *** The angles of the script *)

Section ThirdsScript.

Local Open Scope R_scope.

Lemma thirds_algo_circuit :
  thirds.algo = thirds_circuit thirds_angle1 thirds_angle2.
Proof.
  unfold thirds.algo, thirds_circuit, thirds_angle1, thirds_angle2.
  replace (float_to_R (PrimFloat.opp thirds.angle2))
    with (- float_to_R thirds.angle2); [reflexivity |].
  unfold float_to_R. rewrite <- Q2R_opp. apply Qeq_eqR.
  vm_compute. reflexivity.
Qed.

Lemma thirds_Statevector :
  Statevector thirds.algo = Ok (thirds_state thirds_angle1 thirds_angle2).
Proof. rewrite thirds_algo_circuit. apply thirds_circuit_Statevector. Qed.

(** Half the first angle is the double [arcsin_sqrt_third]. *)
Lemma half_thirds_angle1 :
  thirds_angle1 / 2 = Q2R (float_to_Q thirds.arcsin_sqrt_third).
Proof.
  unfold thirds_angle1, float_to_R.
  assert (E : (float_to_Q thirds.angle1 ==
               2 * float_to_Q thirds.arcsin_sqrt_third)%Q)
    by (vm_compute; reflexivity).
  rewrite (Qeq_eqR _ _ E), Q2R_mult.
  replace (Q2R 2) with 2 by (unfold Q2R; simpl; lra). lra.
Qed.

(** The probabilities of the four rows, for arbitrary angles, in terms of
    [sin (a1 / 2)] and [cos a2 - sin a2]. *)
Lemma thirds_state_probabilities (a1 a2 : R) :
  probability (thirds_state a1 a2) 0 = (1 - sin (a1 / 2) * sin (a1 / 2)) / 2 /\
  probability (thirds_state a1 a2) 1 = (1 - sin (a1 / 2) * sin (a1 / 2)) / 2 /\
  probability (thirds_state a1 a2) 2 =
    sin (a1 / 2) * sin (a1 / 2)
    - sin (a1 / 2) * sin (a1 / 2) * ((cos a2 - sin a2) * (cos a2 - sin a2)) / 2 /\
  probability (thirds_state a1 a2) 3 =
    sin (a1 / 2) * sin (a1 / 2) * ((cos a2 - sin a2) * (cos a2 - sin a2)) / 2.
Proof.
  pose proof inv_sqrt2_sqr as Hh.
  pose proof (sin2_cos2 (a1 / 2)) as H1. unfold Rsqr in H1.
  pose proof (sin2_cos2 a2) as H2. unfold Rsqr in H2.
  unfold probability, thirds_state, amp, Cnorm2, RtoC; cbn [nth fst snd].
  set (s := sin (a1 / 2)) in *. set (c := cos (a1 / 2)) in *.
  set (S2 := sin a2) in *. set (C2 := cos a2) in *.
  set (hh := / sqrt 2) in *. clearbody s c S2 C2 hh.
  assert (Hc : c * c = 1 - s * s) by lra.
  assert (HX : C2 * C2 + S2 * S2 = 1) by lra.
  repeat split.
  - transitivity ((hh * hh) * (c * c)); [ring | rewrite Hh, Hc; lra].
  - transitivity ((hh * hh) * (c * c)); [ring | rewrite Hh, Hc; lra].
  - transitivity ((hh * hh) * (s * s) * ((C2 * C2 + S2 * S2) + 2 * C2 * S2));
      [ring |].
    rewrite Hh, HX. symmetry.
    transitivity
      (s * s - s * s * ((C2 * C2 + S2 * S2) - 2 * C2 * S2) / 2);
      [unfold Rdiv; ring | rewrite HX; field].
  - transitivity ((hh * hh) * (s * s) * ((C2 * C2 + S2 * S2) - 2 * C2 * S2));
      [ring |].
    rewrite Hh, HX. symmetry.
    transitivity (s * s * ((C2 * C2 + S2 * S2) - 2 * C2 * S2) / 2);
      [unfold Rdiv; ring | rewrite HX; field].
Qed.

(** What the partial sums give at the two doubles: [sin (angle1 / 2)]
    squared is within [1e-16] of 1/3, and [cos angle2 - sin angle2] is
    positive with a square of at most [1e-30]. *)
Lemma thirds_script_bounds :
  1 / 3 - 1 / 10 ^ 16 <= sin (thirds_angle1 / 2) * sin (thirds_angle1 / 2)
    <= 1 / 3 + 1 / 10 ^ 16 /\
  0 < (cos thirds_angle2 - sin thirds_angle2) *
      (cos thirds_angle2 - sin thirds_angle2) <= 1 / 10 ^ 30.
Proof.
  rewrite half_thirds_angle1. unfold thirds_angle2, float_to_R.
  set (qc := float_to_Q thirds.arcsin_sqrt_third).
  set (q2 := float_to_Q thirds.angle2).
  destruct (sin_between qc) as [Hsl Hsh]; try (vm_compute; reflexivity).
  destruct (sin_between q2) as [Hsl2 Hsh2]; try (vm_compute; reflexivity).
  destruct (cos_between q2) as [Hcl2 Hch2]; try (vm_compute; reflexivity).
  assert (K1 : Qle_bool ((1 # 3) - (1 # 10000000000000000))
                 (sin_lo qc * sin_lo qc) = true) by (vm_compute; reflexivity).
  assert (K2 : Qle_bool (sin_hi qc * sin_hi qc)
                 ((1 # 3) + (1 # 10000000000000000)) = true)
    by (vm_compute; reflexivity).
  assert (K3 : Qle_bool (sin_lo qc) 0 = false) by (vm_compute; reflexivity).
  assert (K4 : Qle_bool (cos_lo q2 - sin_hi q2) 0 = false)
    by (vm_compute; reflexivity).
  assert (K5 : Qle_bool ((cos_hi q2 - sin_lo q2) * (cos_hi q2 - sin_lo q2))
                 (1 # 1000000000000000000000000000000) = true)
    by (vm_compute; reflexivity).
  apply Qle_bool_R in K1, K2, K5. apply Qlt_bool_R in K3, K4.
  rewrite Q2R_mult in K1, K2, K5.
  rewrite Q2R_minus in K1, K4, K5. rewrite Q2R_plus in K2.
  replace (Q2R 0) with 0 in K3, K4 by (unfold Q2R; simpl; lra).
  replace (Q2R (1 # 3)) with (1 / 3) in K1, K2 by (unfold Q2R; simpl; lra).
  replace (Q2R (1 # 10000000000000000)) with (1 / 10 ^ 16) in K1, K2
    by (unfold Q2R; simpl; lra).
  replace (Q2R (1 # 1000000000000000000000000000000)) with (1 / 10 ^ 30) in K5
    by (unfold Q2R; simpl; lra).
  set (s := sin (Q2R qc)) in *.
  set (S2 := sin (Q2R q2)) in *. set (C2 := cos (Q2R q2)) in *.
  set (sl := Q2R (sin_lo qc)) in *. set (sh := Q2R (sin_hi qc)) in *.
  set (sl2 := Q2R (sin_lo q2)) in *. set (sh2 := Q2R (sin_hi q2)) in *.
  set (cl2 := Q2R (cos_lo q2)) in *. set (ch2 := Q2R (cos_hi q2)) in *.
  set (tiny := 1 / 10 ^ 30) in *. set (small := 1 / 10 ^ 16) in *.
  clearbody s S2 C2 sl sh sl2 sh2 cl2 ch2 tiny small.
  assert (Hd : 0 < C2 - S2 <= ch2 - sl2) by lra.
  repeat split.
  - apply Rle_trans with (sl * sl); [exact K1 |].
    apply Rmult_le_compat; lra.
  - apply Rle_trans with (sh * sh); [| exact K2].
    apply Rmult_le_compat; lra.
  - apply Rmult_lt_0_compat; lra.
  - apply Rle_trans with ((ch2 - sl2) * (ch2 - sl2)); [| exact K5].
    apply Rmult_le_compat; lra.
Qed.

(** The double [arcsin_sqrt_third] is within half a unit in the last place
    (2^-54) of the exact arcsine of the double [sqrt_third]. *)
Lemma arcsin_sqrt_third_nearest :
  Rabs (asin (float_to_R thirds.sqrt_third)
        - float_to_R thirds.arcsin_sqrt_third) <= / 2 ^ 54.
Proof.
  unfold float_to_R.
  set (qr := float_to_Q thirds.sqrt_third).
  set (qc := float_to_Q thirds.arcsin_sqrt_third).
  set (u := (1 # 18014398509481984)%Q).
  destruct (sin_between (qc - u)) as [_ Hlo]; try (vm_compute; reflexivity).
  destruct (sin_between (qc + u)) as [Hhi _]; try (vm_compute; reflexivity).
  assert (K1 : Qle_bool qr (sin_hi (qc - u)) = false) by (vm_compute; reflexivity).
  assert (K2 : Qle_bool (sin_lo (qc + u)) qr = false) by (vm_compute; reflexivity).
  assert (K3 : Qle_bool 0 (qc - u) = true) by (vm_compute; reflexivity).
  assert (K4 : Qle_bool (qc + u) 1 = true) by (vm_compute; reflexivity).
  assert (K5 : Qle_bool 0 qr = true) by (vm_compute; reflexivity).
  assert (K6 : Qle_bool qr 1 = true) by (vm_compute; reflexivity).
  apply Qlt_bool_R in K1, K2. apply Qle_bool_R in K3, K4, K5, K6.
  rewrite Q2R_minus in *. rewrite Q2R_plus in *.
  replace (Q2R 0) with 0 in * by (unfold Q2R; simpl; lra).
  replace (Q2R 1) with 1 in * by (unfold Q2R; simpl; lra).
  replace (Q2R u) with (/ 2 ^ 54) in * by (unfold u, Q2R; simpl; lra).
  pose proof PI2_1 as Hpi.
  set (r := Q2R qr) in *. set (c := Q2R qc) in *. set (e := / 2 ^ 54) in *.
  assert (Hr : -1 <= r <= 1) by lra.
  assert (He : 0 < e) by (apply Rinv_0_lt_compat, pow_lt; lra).
  pose proof (asin_bound r) as Hb.
  pose proof (sin_asin r Hr) as Hs.
  clearbody r c e.
  apply Rabs_le. split.
  - destruct (Rle_lt_dec (c - e) (asin r)) as [H | H]; [lra |].
    assert (sin (asin r) < sin (c - e)) by (apply sin_increasing_1; lra).
    lra.
  - destruct (Rle_lt_dec (asin r) (c + e)) as [H | H]; [lra |].
    assert (sin (c + e) < sin (asin r)) by (apply sin_increasing_1; lra).
    lra.
Qed.

End ThirdsScript.

Lemma thirds_script_probabilities :
  (Rabs (probability (thirds_state thirds_angle1 thirds_angle2) 0 - 1 / 3)
     <= 1 / 10 ^ 15)%R /\
  (Rabs (probability (thirds_state thirds_angle1 thirds_angle2) 1 - 1 / 3)
     <= 1 / 10 ^ 15)%R /\
  (Rabs (probability (thirds_state thirds_angle1 thirds_angle2) 2 - 1 / 3)
     <= 1 / 10 ^ 15)%R /\
  (0 < probability (thirds_state thirds_angle1 thirds_angle2) 3
     <= 1 / 10 ^ 30)%R.
Proof.
  destruct (thirds_state_probabilities thirds_angle1 thirds_angle2)
    as (P0 & P1 & P2 & P3).
  destruct thirds_script_bounds as ([Ht1 Ht2] & [He1 He2]).
  rewrite P0, P1, P2, P3.
  set (t := (sin (thirds_angle1 / 2) * sin (thirds_angle1 / 2))%R) in *.
  set (e := ((cos thirds_angle2 - sin thirds_angle2) *
             (cos thirds_angle2 - sin thirds_angle2))%R) in *.
  clearbody t e.
  assert (H16 : (1 / 10 ^ 16 = 1 / 10000000000000000)%R) by (simpl; lra).
  assert (H15 : (1 / 10 ^ 15 = 1 / 1000000000000000)%R) by (simpl; lra).
  assert (H30 : (1 / 10 ^ 30 = 1 / 1000000000000000000000000000000)%R)
    by (simpl; lra).
  rewrite H16 in *. rewrite H15. rewrite H30 in *.
  assert (Hte : (0 < t * e <= e)%R) by nra.
  repeat split; try (apply Rabs_le; split); lra.
Qed.

Lemma thirds_ideal_probabilities :
  probability thirds_vector 0 = (1 / 3)%R /\
  probability thirds_vector 1 = (1 / 3)%R /\
  probability thirds_vector 2 = (1 / 3)%R /\
  probability thirds_vector 3 = 0%R.
Proof.
  pose proof sqrt_third_sqr as H3.
  unfold probability, thirds_vector, amp, Cnorm2, RtoC; cbn [nth fst snd].
  repeat split; lra.
Qed.

(** C10, as the code has it: the two angles of thirds.py are doubles, and on
    the all-zero 2-qubit state its circuit yields a statevector whose
    probabilities are within 1e-15 of 1/3 for the basis states 0, 1 and 2,
    and positive but at most 1e-30 for basis state 3. With the exact angles
    2 arcsin (sqrt (1/3)) and pi/4 in place of the doubles the statevector is
    [sqrt(1/3), sqrt(1/3), sqrt(1/3), 0] and the probabilities are exactly
    1/3, 1/3, 1/3 and 0. *)
Theorem thirds_probabilities_near_a_third :
  Statevector thirds.algo = Ok (thirds_state thirds_angle1 thirds_angle2) /\
  (Rabs (probability (thirds_state thirds_angle1 thirds_angle2) 0 - 1 / 3)
     <= 1 / 10 ^ 15)%R /\
  (Rabs (probability (thirds_state thirds_angle1 thirds_angle2) 1 - 1 / 3)
     <= 1 / 10 ^ 15)%R /\
  (Rabs (probability (thirds_state thirds_angle1 thirds_angle2) 2 - 1 / 3)
     <= 1 / 10 ^ 15)%R /\
  (0 < probability (thirds_state thirds_angle1 thirds_angle2) 3
     <= 1 / 10 ^ 30)%R /\
  Statevector (thirds_circuit ideal_angle1 ideal_angle2) = Ok thirds_vector /\
  probability thirds_vector 0 = (1 / 3)%R /\
  probability thirds_vector 1 = (1 / 3)%R /\
  probability thirds_vector 2 = (1 / 3)%R /\
  probability thirds_vector 3 = 0%R.
Proof.
  split; [apply thirds_Statevector |].
  destruct thirds_script_probabilities as (B0 & B1 & B2 & B3).
  destruct thirds_ideal_probabilities as (I0 & I1 & I2 & I3).
  split; [exact B0 |]. split; [exact B1 |]. split; [exact B2 |].
  split; [exact B3 |].
  split.
  - rewrite thirds_circuit_Statevector. f_equal. apply thirds_state_ideal.
  - auto.
Qed.

(** C10 fails on the code: with the doubles of the script, basis state 3
    does not have probability exactly 0. *)
Lemma thirds_row_3_is_not_zero :
  exists v : StateVector Cplx,
    Statevector thirds.algo = Ok v /\ probability v 3 <> 0%R.
Proof.
  exists (thirds_state thirds_angle1 thirds_angle2).
  split; [apply thirds_Statevector |].
  destruct thirds_script_probabilities as (_ & _ & _ & [Hpos _]). lra.
Qed.

(** * Further properties of the fragments *)

(** ** The ring of complex amplitudes *)

Lemma Cplx_ring_theory :
  ring_theory (RtoC 0) (RtoC 1) Cadd Cmul (fun a b => Cadd a (Copp b)) Copp eq.
Proof. constructor; intros; cring. Qed.

Add Ring Cplx_ring : Cplx_ring_theory.

(** Twice the square of the Hadamard coefficient is 1. *)
Lemma twice_inv_sqrt2_sqr :
  Cadd (Cmul (RtoC (/ sqrt 2)) (RtoC (/ sqrt 2)))
       (Cmul (RtoC (/ sqrt 2)) (RtoC (/ sqrt 2))) = RtoC 1.
Proof.
  pose proof inv_sqrt2_sqr. apply Cplx_eq; unfold Cadd, Cmul, RtoC; simpl; lra.
Qed.

Lemma four_quarters :
  Cadd (Cadd (RtoC (1 / 4)) (RtoC (1 / 4)))
       (Cadd (RtoC (1 / 4)) (RtoC (1 / 4))) = RtoC 1.
Proof. apply Cplx_eq; unfold Cadd, RtoC; simpl; lra. Qed.

(** Splits a conjunction into its parts. *)
Ltac split_all := repeat match goal with |- _ /\ _ => split end.

(** Evaluates the gates of a replay on an explicit statevector, leaving the
    arithmetic of amplitudes as it is. *)
Ltac replay_step := cbn -[Cadd Cmul Copp RtoC sqrt Rinv Rdiv].

(** Equality of explicit statevectors, entry by entry. *)
Ltac entrywise tac :=
  apply f_equal; repeat (apply f_equal2; [tac |]); try reflexivity.

(** An equation that holds in the ring of amplitudes once [k] factors
    [2 * (1/sqrt 2)^2] are put in front of the right-hand side. *)
Ltac hadamard_ring k :=
  let tw := fresh "tw" in
  let Htw := fresh "Htw" in
  pose proof twice_inv_sqrt2_sqr as Htw;
  set (tw := Cadd (Cmul (RtoC (/ sqrt 2)) (RtoC (/ sqrt 2)))
                  (Cmul (RtoC (/ sqrt 2)) (RtoC (/ sqrt 2)))) in *;
  match goal with
  | |- _ = ?R =>
      match k with
      | 1 => transitivity (Cmul tw R)
      | 2 => transitivity (Cmul (Cmul tw tw) R)
      | 3 => transitivity (Cmul (Cmul tw (Cmul tw tw)) R)
      end
  end;
  [unfold tw; ring | rewrite Htw; ring].

(** ** Fragments on an arbitrary 3-qubit statevector *)

Section Fragments.

Variables a0 a1 a2 a3 a4 a5 a6 a7 : Cplx.

Lemma reverse_explicit :
  replay_gates 3 reverse_gates [a0; a1; a2; a3; a4; a5; a6; a7] =
  Ok [a7; a6; a5; a4; a3; a2; a1; a0].
Proof. replay_step. entrywise ltac:(ring). Qed.

Lemma verify_explicit :
  replay_gates 3 verify_gates [a0; a1; a2; a3; a4; a5; a6; a7] =
  Ok [a0; a5; a2; a3; a4; a1; a6; a7].
Proof. replay_step. entrywise ltac:(ring). Qed.

Lemma verify_with_h_explicit :
  replay_gates 3 verify_with_h_gates [a0; a1; a2; a3; a4; a5; a6; a7] =
  Ok [a0; a1; a2; a3; a4; Copp a5; a6; a7].
Proof. replay_step. entrywise ltac:(hadamard_ring 1). Qed.

Lemma prepare_twice_explicit :
  replay_gates 3 (prepare_gates ++ prepare_gates)
    [a0; a1; a2; a3; a4; a5; a6; a7] =
  Ok [a0; a1; a2; a3; a4; a5; a6; a7].
Proof. replay_step. entrywise ltac:(hadamard_ring 3). Qed.

Lemma ccz_explicit :
  replay_gates 3 [mkGate PhaseFlip [0; 1] 2] [a0; a1; a2; a3; a4; a5; a6; a7] =
  Ok [a0; a1; a2; a3; a4; a5; a6; Copp a7].
Proof. reflexivity. Qed.

Lemma increment_explicit :
  replay_gates 3 increment_gates [a0; a1; a2; a3; a4; a5; a6; a7] =
  Ok [a7; a0; a1; a2; a3; a4; a5; a6].
Proof. replay_step. entrywise ltac:(ring). Qed.

End Fragments.

Lemma amplify_gates_split :
  amplify_gates =
  prepare_gates ++ reverse_gates ++ [mkGate PhaseFlip [0; 1] 2] ++
  reverse_gates ++ prepare_gates.
Proof. reflexivity. Qed.

(** Evaluates the innermost replay of the gates [gs], the one applied to an
    explicit statevector. *)
Ltac replay_inner gs :=
  match goal with
  | |- context [replay_gates 3 gs ?l] =>
      let r := eval cbn -[Cadd Cmul Copp RtoC sqrt Rinv Rdiv] in
                 (replay_gates 3 gs l) in
      change (replay_gates 3 gs l) with r; cbn [bind]
  end.

(** The amplify equation: with the factors [4 * (1/4)] and
    [2 * (1/sqrt 2)^2] made explicit it holds in the ring of amplitudes. *)
Ltac amplify_ring :=
  let tw := fresh "tw" in
  let Htw := fresh "Htw" in
  let fq := fresh "fq" in
  let Hfq := fresh "Hfq" in
  pose proof twice_inv_sqrt2_sqr as Htw;
  pose proof four_quarters as Hfq;
  set (tw := Cadd (Cmul (RtoC (/ sqrt 2)) (RtoC (/ sqrt 2)))
                  (Cmul (RtoC (/ sqrt 2)) (RtoC (/ sqrt 2)))) in *;
  set (fq := Cadd (Cadd (RtoC (1 / 4)) (RtoC (1 / 4)))
                  (Cadd (RtoC (1 / 4)) (RtoC (1 / 4)))) in *;
  match goal with
  | |- ?L = Cadd ?a (Copp (Cmul ?q ?S)) =>
      transitivity (Cmul fq L); [rewrite Hfq; ring |];
      transitivity (Cmul (Cmul tw (Cmul tw tw))
                         (Cadd (Cmul fq a) (Copp (Cmul q S))));
      [unfold tw, fq; ring | rewrite Htw, Hfq; ring]
  end.

Lemma amplify_explicit (a0 a1 a2 a3 a4 a5 a6 a7 : Cplx) :
  replay_gates 3 amplify_gates [a0; a1; a2; a3; a4; a5; a6; a7] =
  Ok (minus_quarter_sum [a0; a1; a2; a3; a4; a5; a6; a7]).
Proof.
  rewrite amplify_gates_split, replay_gates_app.
  replay_inner prepare_gates.
  rewrite replay_gates_app, reverse_explicit; cbn [bind].
  rewrite replay_gates_app, ccz_explicit; cbn [bind].
  rewrite replay_gates_app, reverse_explicit; cbn [bind].
  replay_step.
  unfold minus_quarter_sum; cbn [map Csum].
  entrywise ltac:(amplify_ring).
Qed.

(** ** The fragments of the Grover scripts *)

(** X1: [add_reverse] reverses the rows of a 3-qubit statevector, the
    amplitude of row [i] goes to row [7 - i]; called twice it gives the
    statevector back. Both scripts. *)
Theorem add_reverse_reverses_rows (a0 a1 a2 a3 a4 a5 a6 a7 : Cplx) :
  replay (grover_simple.add_reverse (new_circuit 3 0))
    [a0; a1; a2; a3; a4; a5; a6; a7] = Ok [a7; a6; a5; a4; a3; a2; a1; a0] /\
  replay (grover.add_reverse (new_circuit 3 0))
    [a0; a1; a2; a3; a4; a5; a6; a7] = Ok [a7; a6; a5; a4; a3; a2; a1; a0] /\
  replay (grover_simple.add_reverse (grover_simple.add_reverse (new_circuit 3 0)))
    [a0; a1; a2; a3; a4; a5; a6; a7] = Ok [a0; a1; a2; a3; a4; a5; a6; a7].
Proof.
  split_all; try apply reverse_explicit.
  change (replay_gates 3 (reverse_gates ++ reverse_gates)
            [a0; a1; a2; a3; a4; a5; a6; a7] =
          Ok [a0; a1; a2; a3; a4; a5; a6; a7]).
  rewrite replay_gates_app, reverse_explicit; cbn [bind].
  apply reverse_explicit.
Qed.

(** X2: on an arbitrary 3-qubit statevector the verify oracle [add_verify]
    exchanges the amplitudes of rows 1 and 5 (qubit 0 set, qubit 1 clear,
    qubit 2 either way) and leaves the six other rows as they are; called
    twice it gives the statevector back. Both scripts. *)
Theorem add_verify_swaps_rows_1_and_5 (a0 a1 a2 a3 a4 a5 a6 a7 : Cplx) :
  replay (grover_simple.add_verify (new_circuit 3 0))
    [a0; a1; a2; a3; a4; a5; a6; a7] = Ok [a0; a5; a2; a3; a4; a1; a6; a7] /\
  replay (grover.add_verify (new_circuit 3 0))
    [a0; a1; a2; a3; a4; a5; a6; a7] = Ok [a0; a5; a2; a3; a4; a1; a6; a7] /\
  replay (grover_simple.add_verify (grover_simple.add_verify (new_circuit 3 0)))
    [a0; a1; a2; a3; a4; a5; a6; a7] = Ok [a0; a1; a2; a3; a4; a5; a6; a7].
Proof.
  split_all; try apply verify_explicit.
  change (replay_gates 3 (verify_gates ++ verify_gates)
            [a0; a1; a2; a3; a4; a5; a6; a7] =
          Ok [a0; a1; a2; a3; a4; a5; a6; a7]).
  rewrite replay_gates_app, verify_explicit; cbn [bind].
  apply verify_explicit.
Qed.

(** X3: on an arbitrary 3-qubit statevector [add_verify_with_h] negates the
    amplitude of row 5 and leaves every other amplitude as it is: the
    bit-flip oracle between two Hadamards on qubit 2 is a sign flip of one
    row. Both scripts. *)
Theorem add_verify_with_h_flips_sign_of_row_5 (a0 a1 a2 a3 a4 a5 a6 a7 : Cplx) :
  replay (grover_simple.add_verify_with_h (new_circuit 3 0))
    [a0; a1; a2; a3; a4; a5; a6; a7] =
    Ok [a0; a1; a2; a3; a4; Copp a5; a6; a7] /\
  replay (grover.add_verify_with_h (new_circuit 3 0))
    [a0; a1; a2; a3; a4; a5; a6; a7] =
    Ok [a0; a1; a2; a3; a4; Copp a5; a6; a7].
Proof. split; apply verify_with_h_explicit. Qed.

(** X4: [add_prepare] called twice gives an arbitrary 3-qubit statevector
    back. Both scripts. *)
Theorem add_prepare_twice_restores (a0 a1 a2 a3 a4 a5 a6 a7 : Cplx) :
  replay (grover_simple.add_prepare (grover_simple.add_prepare (new_circuit 3 0)))
    [a0; a1; a2; a3; a4; a5; a6; a7] = Ok [a0; a1; a2; a3; a4; a5; a6; a7] /\
  replay (grover.add_prepare (grover.add_prepare (new_circuit 3 0)))
    [a0; a1; a2; a3; a4; a5; a6; a7] = Ok [a0; a1; a2; a3; a4; a5; a6; a7].
Proof. split; apply prepare_twice_explicit. Qed.

(** X5: [add_amplify] subtracts from every amplitude of a 3-qubit
    statevector a quarter of the sum of all eight amplitudes (twice their
    mean): the inversion about the mean, up to the sign of the whole vector.
    Both scripts. *)
Theorem add_amplify_subtracts_twice_the_mean (a0 a1 a2 a3 a4 a5 a6 a7 : Cplx) :
  replay (grover_simple.add_amplify (new_circuit 3 0))
    [a0; a1; a2; a3; a4; a5; a6; a7] =
    Ok (map (fun a => Cadd a (Copp (Cmul (RtoC (1 / 4))
              (Csum [a0; a1; a2; a3; a4; a5; a6; a7]))))
            [a0; a1; a2; a3; a4; a5; a6; a7]) /\
  replay (grover.add_amplify (new_circuit 3 0))
    [a0; a1; a2; a3; a4; a5; a6; a7] =
    Ok (map (fun a => Cadd a (Copp (Cmul (RtoC (1 / 4))
              (Csum [a0; a1; a2; a3; a4; a5; a6; a7]))))
            [a0; a1; a2; a3; a4; a5; a6; a7]).
Proof. split; apply amplify_explicit. Qed.

(** X6: [add_amplify] called twice gives an arbitrary 3-qubit statevector
    back. *)
Theorem add_amplify_twice_restores (a0 a1 a2 a3 a4 a5 a6 a7 : Cplx) :
  replay (grover_simple.add_amplify (grover_simple.add_amplify (new_circuit 3 0)))
    [a0; a1; a2; a3; a4; a5; a6; a7] = Ok [a0; a1; a2; a3; a4; a5; a6; a7].
Proof.
  change (replay_gates 3 (amplify_gates ++ amplify_gates)
            [a0; a1; a2; a3; a4; a5; a6; a7] =
          Ok [a0; a1; a2; a3; a4; a5; a6; a7]).
  rewrite replay_gates_app, amplify_explicit; cbn [bind].
  unfold minus_quarter_sum at 1; cbn [map].
  rewrite amplify_explicit.
  unfold minus_quarter_sum; cbn [map Csum].
  pose proof four_quarters as Hfq.
  set (fq := Cadd (Cadd (RtoC (1 / 4)) (RtoC (1 / 4)))
                  (Cadd (RtoC (1 / 4)) (RtoC (1 / 4)))) in *.
  set (S := Cadd a0 (Cadd a1 (Cadd a2 (Cadd a3 (Cadd a4 (Cadd a5
              (Cadd a6 (Cadd a7 (RtoC 0))))))))).
  entrywise ltac:(
    idtac;
    match goal with
    | |- _ = ?a =>
        transitivity
          (Cadd a (Cmul (Cmul (Cadd (RtoC (1 / 4)) (RtoC (1 / 4))) S)
                        (Cadd fq (Copp (RtoC 1)))));
        [unfold fq, S; ring | rewrite Hfq; ring]
    end).
Qed.

(** X7: from every basis state of the 3-qubit register [add_prepare] gives a
    statevector in which each of the eight rows has probability 1/8. *)
Theorem add_prepare_gives_uniform_distribution (k : nat) :
  k < 8 ->
  exists w : StateVector Cplx,
    replay (grover_simple.add_prepare (new_circuit 3 0)) (basis_state 3 k) = Ok w /\
    replay (grover.add_prepare (new_circuit 3 0)) (basis_state 3 k) = Ok w /\
    length w = 8 /\
    forall i, i < 8 -> probability w i = (1 / 8)%R.
Proof.
  intros Hk.
  assert (Hq : Q2R (1 # 8) = (1 / 8)%R) by (unfold Q2R; simpl; lra).
  do 8 (destruct k as [| k];
    [eexists; split; [| split; [| split]];
     [rewrite <- basis_state_interp;
      apply ExactFacts.replay_gates_interp; vm_compute; reflexivity
     |rewrite <- basis_state_interp;
      apply ExactFacts.replay_gates_interp; vm_compute; reflexivity
     |reflexivity
     |intros i Hi; unfold probability;
      rewrite ExactFacts.amp_interp, ExactFacts.Cnorm2_interp;
      do 8 (destruct i as [| i];
        [match goal with
         | |- fst (Exact.interp ?e) = _ =>
             replace e with (Exact.mk (1 # 8) 0) by (vm_compute; reflexivity)
         end;
         unfold Exact.interp, RtoC; cbn [fst Exact.rat Exact.irr];
         rewrite Hq; unfold Q2R; simpl; lra |]);
      lia] |]).
  lia.
Qed.

Lemma add_prepare_gives_uniform_distribution_witness :
  exists w : StateVector Cplx,
    replay (grover_simple.add_prepare (new_circuit 3 0)) (basis_state 3 0) = Ok w /\
    replay (grover.add_prepare (new_circuit 3 0)) (basis_state 3 0) = Ok w /\
    length w = 8 /\
    forall i, i < 8 -> probability w i = (1 / 8)%R.
Proof. apply (@add_prepare_gives_uniform_distribution 0). lia. Defined.

(** ** increment.py, further *)

(** X8: [add_increment] called eight times in a row gives an arbitrary
    3-qubit statevector back: the increment has order 8. *)
Theorem eight_increments_restore (a0 a1 a2 a3 a4 a5 a6 a7 : Cplx) :
  replay (eight_increments (new_circuit 3 0)) [a0; a1; a2; a3; a4; a5; a6; a7] =
  Ok [a0; a1; a2; a3; a4; a5; a6; a7].
Proof.
  change (replay_gates 3
            (increment_gates ++ increment_gates ++ increment_gates ++
             increment_gates ++ increment_gates ++ increment_gates ++
             increment_gates ++ increment_gates)
            [a0; a1; a2; a3; a4; a5; a6; a7] =
          Ok [a0; a1; a2; a3; a4; a5; a6; a7]).
  do 7 (rewrite replay_gates_app, increment_explicit; cbn [bind]).
  apply increment_explicit.
Qed.

(** ** Fragments on a circuit that already holds gates *)

Lemma replay_appended {A : Type} {AmpA : Amplitude A}
    (algo algo' : QuantumCircuit) (gs : list Gate) (v : StateVector A) :
  num_qubits algo' = num_qubits algo ->
  data algo' = data algo ++ gs ->
  replay algo' v = replay algo v >>= replay_gates (num_qubits algo) gs.
Proof.
  intros Hn Hd. unfold replay. rewrite Hn, Hd. apply replay_gates_app.
Qed.

(** X9: a fragment called on a circuit that already holds gates keeps the
    gates and the register and appends its own gates, so that replaying the
    result is replaying the circuit and then the fragment's gates on what it
    yields. For every fragment of increment.py and of the Grover scripts. *)
Theorem fragments_append {A : Type} {AmpA : Amplitude A}
    (algo : QuantumCircuit) (v : StateVector A) :
  replay (increment.add_increment algo) v =
    replay algo v >>= replay_gates (num_qubits algo) increment_gates /\
  replay (grover_simple.add_verify algo) v =
    replay algo v >>= replay_gates (num_qubits algo) verify_gates /\
  replay (grover_simple.add_verify_with_h algo) v =
    replay algo v >>= replay_gates (num_qubits algo) verify_with_h_gates /\
  replay (grover_simple.add_prepare algo) v =
    replay algo v >>= replay_gates (num_qubits algo) prepare_gates /\
  replay (grover_simple.add_reverse algo) v =
    replay algo v >>= replay_gates (num_qubits algo) reverse_gates /\
  replay (grover_simple.add_amplify algo) v =
    replay algo v >>= replay_gates (num_qubits algo) amplify_gates.
Proof.
  split_all; apply replay_appended; try reflexivity;
    unfold increment.add_increment, grover_simple.add_amplify,
      grover_simple.add_verify_with_h, grover_simple.add_verify,
      grover_simple.add_prepare, grover_simple.add_reverse,
      h, x, cx, ccx, ccz, append;
    cbn [data]; rewrite <- ?app_assoc; reflexivity.
Qed.

(** ** The statevectors the scripts print *)

Lemma Statevector_scaled algo (w : StateVector Exact.t) (r : R) (ks : list Z) :
  Statevector algo = Ok w ->
  map Exact.interp w = scaled r ks ->
  Statevector algo = Ok (scaled r ks).
Proof.
  intros E <-. now apply ExactFacts.Statevector_interp.
Qed.

(** Proves that exact amplitudes, read in the complex numbers, are the
    entries of a scaled integer vector. *)
Ltac scaled_entries :=
  unfold scaled, Exact.interp, RtoC, Q2R;
  cbn [map Exact.rat Exact.irr Qnum Qden];
  repeat (apply f_equal2; [apply f_equal2; [lra | reflexivity] |]);
  reflexivity.

(** X10: simple.py prints the statevectors [1, 0, 0, 0], then
    [1/sqrt 2, 1/sqrt 2, 0, 0] after h(0), then [1/2, 1/2, 1/2, 1/2] after
    h(1); each of the four outcomes of measuring both qubits then has
    probability 1/4. *)
Theorem simple_uniform_two_bits :
  Statevector (new_circuit 2 0) = Ok (scaled 1 [1; 0; 0; 0]%Z) /\
  Statevector simple.algo_v2 = Ok (scaled (sqrt 2 / 2) [1; 1; 0; 0]%Z) /\
  Statevector simple.algo = Ok (scaled (1 / 2) [1; 1; 1; 1]%Z) /\
  outcome_probability [0; 1] [false; false] (scaled (1 / 2) [1; 1; 1; 1]%Z) = (1 / 4)%R /\
  outcome_probability [0; 1] [true; false] (scaled (1 / 2) [1; 1; 1; 1]%Z) = (1 / 4)%R /\
  outcome_probability [0; 1] [false; true] (scaled (1 / 2) [1; 1; 1; 1]%Z) = (1 / 4)%R /\
  outcome_probability [0; 1] [true; true] (scaled (1 / 2) [1; 1; 1; 1]%Z) = (1 / 4)%R.
Proof.
  split; [| split; [| split]].
  - eapply Statevector_scaled; [vm_compute; reflexivity | scaled_entries].
  - eapply Statevector_scaled; [vm_compute; reflexivity | scaled_entries].
  - eapply Statevector_scaled; [vm_compute; reflexivity | scaled_entries].
  - split_all;
      unfold outcome_probability, probability, Cnorm2, scaled, RtoC; simpl; lra.
Qed.

(** X11: in increment.py the circuit [algo2] after h(2) has amplitude
    [1/sqrt 2] at rows 0 and 4 and 0 elsewhere, and after [add_increment]
    at rows 1 and 5. *)
Theorem increment_of_a_superposition :
  Statevector increment.algo2_v4 =
    Ok (scaled (sqrt 2 / 2) [1; 0; 0; 0; 1; 0; 0; 0]%Z) /\
  Statevector increment.algo2_v5 =
    Ok (scaled (sqrt 2 / 2) [0; 1; 0; 0; 0; 1; 0; 0]%Z).
Proof.
  split; (eapply Statevector_scaled; [vm_compute; reflexivity | scaled_entries]).
Qed.

(** X12: the seven statevectors grover.py prints. [algo1]: row 3, then row 7
    after ccx(0,1,2). [algo2]: row 5 after x(0) and [add_verify]. [algo3]:
    after prepare and the phase oracle all rows [sqrt 2 / 4] with row 5
    negated; after a second prepare [3/4, 1/4, -1/4, 1/4, 1/4, -1/4, 1/4,
    -1/4]; after reverse, ccz, reverse the same with row 0 negated; after
    the last prepare [sqrt 2 / 8] times [-1, ..., -5 at row 5, ..., -1],
    which is the statevector of [algo4]. *)
Theorem grover_printed_statevectors :
  Statevector grover.algo1_v1 = Ok (scaled 1 [0; 0; 0; 1; 0; 0; 0; 0]%Z) /\
  Statevector grover.algo1_v2 = Ok (scaled 1 [0; 0; 0; 0; 0; 0; 0; 1]%Z) /\
  Statevector grover.algo2 = Ok (scaled 1 [0; 0; 0; 0; 0; 1; 0; 0]%Z) /\
  Statevector grover.algo3_v4 =
    Ok (scaled (sqrt 2 / 4) [1; 1; 1; 1; 1; -1; 1; 1]%Z) /\
  Statevector grover.algo3_v5 =
    Ok (scaled (1 / 4) [3; 1; -1; 1; 1; -1; 1; -1]%Z) /\
  Statevector grover.algo3_v6 =
    Ok (scaled (1 / 4) [-3; 1; -1; 1; 1; -1; 1; -1]%Z) /\
  Statevector grover.algo3_v7 =
    Ok (scaled (sqrt 2 / 8) [-1; -1; -1; -1; -1; -5; -1; -1]%Z) /\
  Statevector grover.algo4 =
    Ok (scaled (sqrt 2 / 8) [-1; -1; -1; -1; -1; -5; -1; -1]%Z).
Proof.
  split_all;
    (eapply Statevector_scaled; [vm_compute; reflexivity | scaled_entries]).
Qed.
